(** * Property investment calculator: the projection loop of [app.py]

    A shallow embedding of [calculate_pmt] and [calculate_data] of
    [src/app.py], and the properties of the yearly schedule they produce.

    Numbers.  The Python program computes with [int] and [float].  Here
    every number is an exact rational in canonical form ([Qc]): the
    arithmetic is the one the formulas denote, and the rounding, overflow
    and NaN of binary64 are not represented.  What Python does raise on
    exact arithmetic, [ZeroDivisionError] from [/] and from a negative
    power of zero, is kept, as a result type.

    Inputs.  [calculate_data] reads the values the sidebar has bound at
    module level; they are the fields of [Globals].  [loan_term], [cpi]
    and the yearly factor [0.9] of the depreciation are constants of the
    source.

    The loop.  [body] is one iteration down to [data.append], and returns
    every local variable of the iteration as a [Frame]; [row_of] is the
    dictionary appended, [advance] the two updates that follow.  [frames]
    runs the loop and keeps the frames, [calculate_data] is the table of
    their rows. *)

From Stdlib Require Import String.
From Stdlib Require Import ZArith QArith Qcanon List Lia Lra Psatz Bool.
From Stdlib Require Import Floats.
Import ListNotations.

(** ** Numbers *)

Module Num.

Abbreviation num := Qc (only parsing).

(** An [int] used where a [float] is expected. *)
Definition of_int (z : Z) : num := Q2Qc (inject_Z z).

(** A decimal literal, [dec n d] for [n/d]: [0.9] is [dec 9 10]. *)
Definition dec (n : Z) (d : positive) : num := Q2Qc (n # d).

(** [x == 0] *)
Definition is_zero (x : num) : bool := Qc_eq_bool x 0.

(** [int(x)]: truncation toward zero. *)
Definition int (x : num) : Z := Z.quot (Qnum x) (Zpos (Qden x)).

End Num.
Export Num.

(** ** Exceptions *)

Inductive exn : Type :=
| ZeroDivisionError.

Inductive result (A : Type) : Type :=
| Ok (a : A)
| Raise (e : exn).

Arguments Ok {A} a.
Arguments Raise {A} e.

Definition bind {A B : Type} (m : result A) (k : A -> result B) : result B :=
  match m with
  | Ok a => k a
  | Raise e => Raise e
  end.

Notation "x <- m ;; k" := (bind m (fun x => k))
  (at level 61, m at next level, right associativity).
Notation "' p <- m ;; k" := (bind m (fun p => k))
  (at level 61, p pattern, m at next level, right associativity).

Local Open Scope Qc_scope.

(** [a / b] of Python: a zero divisor raises. *)
Definition truediv (a b : num) : result num :=
  if is_zero b then Raise ZeroDivisionError else Ok (a / b).

(** [x ** e] for an integer exponent [e]: [x ** 0] is [1], and zero to a
  negative power raises. *)
Definition pow (x : num) (e : Z) : result num :=
  match e with
  | Z0 => Ok 1
  | Zpos p => Ok (x ^ Pos.to_nat p)
  | Zneg p => if is_zero x then Raise ZeroDivisionError
            else Ok (/ (x ^ Pos.to_nat p))
  end.

(** ** The sidebar: the module-level inputs *)

(** The two options of the [st.radio] widget: interest only, or principal
  and interest. *)
Inductive RepaymentType : Type :=
| IO
| PI.

(** The values the sidebar binds.  [st.number_input] with an integer
  [value] and [step] yields an [int]; sliders divided by [100] and the
  interest rate are floats. *)
Record Globals : Type := {
  buy_price : Z;
  stamp_duty : Z;
  loan_ratio : num;
  interest_rate : num;
  repayment_type : RepaymentType;
  weekly_rent : Z;
  vacancy_rate : num;
  capital_growth : num;
  rental_growth : num;
  council_rates : Z;
  water_rates : Z;
  strata_fees : Z;
  insurance : Z;
  land_tax : Z;
  mgmt_fee_pct : num;
  maintain_pct : num;
  tax_rate : num;
  depreciation_first_year : Z
}.

(** [loan_term = 30] and [cpi = 0.03] are fixed in the source. *)
Definition loan_term : Z := 30.
Definition cpi : num := dec 3 100.

(** The options of the tax-rate [st.selectbox]. *)
Definition tax_rate_options : list num := [dec 325 1000; dec 37 100; dec 45 100].

(** ** [calculate_pmt] *)

Definition calculate_pmt (rate : num) (nper : Z) (pv : num) : result num :=
  if is_zero rate then truediv pv (of_int nper)
  else
  p <- pow (1 + rate) (- nper) ;;
  truediv (rate * pv) (1 - p).

(** ** [calculate_data] *)

(** The variables the loop carries from one year to the next. *)
Record State : Type := {
  current_value : num;
  loan_amount : num;
  current_weekly_rent : num;
  cumulative_cashflow : num;
  current_depreciation : num
}.

(** The local variables at [data.append]: [vars] holds the carried
  variables as they are at that point ([cumulative_cashflow],
  [loan_amount] and [current_value] already updated for the year,
  [current_weekly_rent] and [current_depreciation] not yet). *)
Record Frame : Type := {
  year : Z;
  vars : State;
  annual_rent_gross : num;
  vacancy_loss : num;
  effective_rent : num;
  interest_payment : num;
  principal_payment : num;
  inflation_multiplier : num;
  current_fixed_expenses : num;
  mgmt_fee : num;
  maintenance : num;
  total_cash_expenses : num;
  pre_tax_cashflow : num;
  tax_deductible_expenses : num;
  taxable_income : num;
  tax_impact : num;
  post_tax_cashflow : num;
  net_wealth : num
}.

(** One row of the returned table. *)
Record Row : Type := {
  Year : Z;
  Market_Value : Z;
  Annual_Rent : Z;
  Annual_Cashflow : Z;
  Cumulative_Cashflow : Z;
  Real_Total_Return : Z
}.

(** [sum(l)] on integers. *)
Definition sum_int (l : list Z) : Z := fold_left Z.add l 0%Z.

Section Projection.

Variable g : Globals.

Definition initial_loan_amount : num := of_int (buy_price g) * loan_ratio g.

Definition initial_cash_invested : num :=
  (of_int (buy_price g) - initial_loan_amount) + of_int (stamp_duty g).

Definition expenses_base : list (string * Z) :=
  [ ("council"%string, council_rates g); ("water"%string, water_rates g);
    ("strata"%string, strata_fees g); ("insurance"%string, insurance g);
    ("land_tax"%string, land_tax g) ].

(** [sum(expenses_base.values())] *)
Definition sum_expenses : Z :=
  sum_int (map snd expenses_base).

(** The state before the first year. *)
Definition init : State := {|
  current_value := of_int (buy_price g);
  loan_amount := initial_loan_amount;
  current_weekly_rent := of_int (weekly_rent g);
  cumulative_cashflow := 0;
  current_depreciation := of_int (depreciation_first_year g)
|}.

(** The interest and principal of the year. *)
Definition repayment (st : State) (yr : Z) : result (num * num) :=
  match repayment_type g with
  | IO => Ok (loan_amount st * interest_rate g, 0)
  | PI =>
      let years_remain := (loan_term - (yr - 1))%Z in
      if (0 <? years_remain)%Z then
        annual_repayment <-
          calculate_pmt (interest_rate g) years_remain (loan_amount st) ;;
        let interest_payment := loan_amount st * interest_rate g in
        Ok (interest_payment, annual_repayment - interest_payment)
      else Ok (0, 0)
  end.

(** The loop body down to [data.append]. *)
Definition body (st : State) (yr : Z) : result Frame :=
  let annual_rent_gross := current_weekly_rent st * of_int 52 in
  let vacancy_loss := annual_rent_gross * vacancy_rate g in
  let effective_rent := annual_rent_gross - vacancy_loss in
  '(interest_payment, principal_payment) <- repayment st yr ;;
  inflation_multiplier <- pow (1 + cpi) (yr - 1) ;;
  let current_fixed_expenses := of_int sum_expenses * inflation_multiplier in
  let mgmt_fee := effective_rent * mgmt_fee_pct g in
  let maintenance := effective_rent * maintain_pct g in
  let total_cash_expenses :=
    interest_payment + principal_payment + current_fixed_expenses
    + mgmt_fee + maintenance in
  let pre_tax_cashflow := effective_rent - total_cash_expenses in
  let tax_deductible_expenses :=
    interest_payment + current_fixed_expenses + mgmt_fee + maintenance
    + current_depreciation st in
  let taxable_income := effective_rent - tax_deductible_expenses in
  let tax_impact := taxable_income * tax_rate g in
  let post_tax_cashflow := pre_tax_cashflow - tax_impact in
  let cumulative_cashflow' := cumulative_cashflow st + post_tax_cashflow in
  let loan_amount' := loan_amount st - principal_payment in
  let current_value' := current_value st * (1 + capital_growth g) in
  let net_wealth :=
    (current_value' - loan_amount') - initial_cash_invested
    + cumulative_cashflow' in
  Ok {| year := yr;
        vars := {| current_value := current_value';
                   loan_amount := loan_amount';
                   current_weekly_rent := current_weekly_rent st;
                   cumulative_cashflow := cumulative_cashflow';
                   current_depreciation := current_depreciation st |};
        annual_rent_gross := annual_rent_gross;
        vacancy_loss := vacancy_loss;
        effective_rent := effective_rent;
        interest_payment := interest_payment;
        principal_payment := principal_payment;
        inflation_multiplier := inflation_multiplier;
        current_fixed_expenses := current_fixed_expenses;
        mgmt_fee := mgmt_fee;
        maintenance := maintenance;
        total_cash_expenses := total_cash_expenses;
        pre_tax_cashflow := pre_tax_cashflow;
        tax_deductible_expenses := tax_deductible_expenses;
        taxable_income := taxable_income;
        tax_impact := tax_impact;
        post_tax_cashflow := post_tax_cashflow;
        net_wealth := net_wealth |}.

(** The dictionary appended to [data]. *)
Definition row_of (fr : Frame) : Row := {|
  Year := year fr;
  Market_Value := int (current_value (vars fr));
  Annual_Rent := int (effective_rent fr);
  Annual_Cashflow := int (post_tax_cashflow fr);
  Cumulative_Cashflow := int (cumulative_cashflow (vars fr));
  Real_Total_Return := int (net_wealth fr)
|}.

(** The two updates after [data.append]. *)
Definition advance (fr : Frame) : State :=
  let st := vars fr in {|
    current_value := current_value st;
    loan_amount := loan_amount st;
    current_weekly_rent := current_weekly_rent st * (1 + rental_growth g);
    cumulative_cashflow := cumulative_cashflow st;
    current_depreciation := current_depreciation st * dec 9 10
  |}.

(** [for year in range(yr, yr + n)], collecting the frame of every
    year; an exception in any year ends the call. *)
Fixpoint loop (n : nat) (yr : Z) (st : State) : result (list Frame) :=
  match n with
  | O => Ok []
  | S n' =>
      fr <- body st yr ;;
      rest <- loop n' (yr + 1)%Z (advance fr) ;;
      Ok (fr :: rest)
  end.

(** The frames of [for year in range(1, years + 1)]. *)
Definition frames (years : Z) : result (list Frame) :=
  loop (Z.to_nat years) 1%Z init.

(** [calculate_data(years)]: the rows of the returned table. *)
Definition calculate_data (years : Z) : result (list Row) :=
  frs <- frames years ;;
  Ok (map row_of frs).

End Projection.

(** ** Vocabulary of the properties *)

(** [sum(l)] of Python: left to right, from [0]. *)
Definition sum_num (l : list num) : num := fold_left Qcplus l 0.

(** [steps g yr st frs]: [frs] are the frames of consecutive iterations
    of the loop, the first one for year [yr] from the state [st]. *)
Inductive steps (g : Globals) : Z -> State -> list Frame -> Prop :=
| steps_nil : forall yr st, steps g yr st []
| steps_cons : forall yr st fr frs,
    body g st yr = Ok fr ->
    steps g (yr + 1)%Z (advance g fr) frs ->
    steps g yr st (fr :: frs).

(** The domain of the inputs: the constraints the specification puts on
    the assumptions, for the inputs the program has; the tax rate is one
    of the options of its select box. *)
Record valid (g : Globals) : Prop := {
  valid_buy_price : (0 < buy_price g)%Z;
  valid_stamp_duty : (0 <= stamp_duty g)%Z;
  valid_loan_ratio : 0 <= loan_ratio g /\ loan_ratio g <= 1;
  valid_interest_rate : 0 <= interest_rate g;
  valid_weekly_rent : (0 <= weekly_rent g)%Z;
  valid_vacancy_rate : 0 <= vacancy_rate g /\ vacancy_rate g <= 1;
  valid_capital_growth : - (1) <= capital_growth g;
  valid_rental_growth : - (1) <= rental_growth g;
  valid_expenses : (0 <= sum_expenses g)%Z;
  valid_mgmt_fee_pct : 0 <= mgmt_fee_pct g;
  valid_maintain_pct : 0 <= maintain_pct g;
  valid_tax_rate : In (tax_rate g) tax_rate_options;
  valid_depreciation : (0 <= depreciation_first_year g)%Z
}.

(** [z] is [x] truncated toward zero. *)
Definition truncates (z : Z) (x : num) : Prop :=
  (0 <= x -> of_int z <= x /\ x < of_int z + 1) /\
  (x <= 0 -> of_int z - 1 < x /\ x <= of_int z) /\
  (- (1) < x - of_int z /\ x - of_int z < 1).



(** The depreciation of year [k] as the specification words it, from the
    first year's amount and a decay rate. *)
Definition spec_depreciation (first : Z) (decay : num) (k : Z) : num :=
  of_int first * (1 - decay) ^ Z.to_nat (k - 1).

(** What the loop maintains on the depreciation. *)
Definition depreciating (g : Globals) (yr : Z) (st : State) : Prop :=
  (1 <= yr)%Z /\
  current_depreciation st
  = of_int (depreciation_first_year g) * dec 9 10 ^ Z.to_nat (yr - 1).

(** The inputs on which the repayment formula divides by zero. *)
Definition divides_by_zero (g : Globals) : Prop :=
  repayment_type g = PI /\
  (interest_rate g = - (1) \/ interest_rate g = - of_int 2).

(** ** Concrete inputs *)

(** The sidebar with its default values, but for the price, the repayment
    type, the interest rate and the capital growth. *)
Definition sidebar (price : Z) (rt : RepaymentType) (rate growth : num)
  : Globals := {|
  buy_price := price;
  stamp_duty := 35000;
  loan_ratio := dec 80 100;
  interest_rate := rate;
  repayment_type := rt;
  weekly_rent := 650;
  vacancy_rate := dec 4 100;
  capital_growth := growth;
  rental_growth := dec 35 1000;
  council_rates := 1500;
  water_rates := 1000;
  strata_fees := 2500;
  insurance := 1800;
  land_tax := 1200;
  mgmt_fee_pct := dec 66 1000;
  maintain_pct := dec 1 100;
  tax_rate := dec 37 100;
  depreciation_first_year := 8000
|}.

(** The default values of every widget. *)
Definition defaults : Globals := sidebar 650000 IO (dec 61 1000) (dec 5 100).

(** The defaults with principal and interest repaid. *)
Definition defaults_PI : Globals := sidebar 650000 PI (dec 61 1000) (dec 5 100).

(** The defaults with no capital growth. *)
Definition defaults_flat : Globals := sidebar 650000 IO (dec 61 1000) 0.


(** ** The script around [calculate_data] *)



(** What the script can raise: an exception of the computation, or the
    [IndexError] of [.iloc[0]] on an empty selection. *)
Inductive script_exn : Type :=
| Computation (e : exn)
| IndexError.

Inductive outcome (A : Type) : Type :=
| Returns (a : A)
| Fails (e : script_exn).

Arguments Returns {A} a.
Arguments Fails {A} e.

(** [df[df["Year"] == selected_year]]: the rows of that year, in order.
    The table has its [Year] column: it is not empty. *)
Definition rows_of_year (df : list Row) (selected_year : Z) : list Row :=
  filter (fun r => (Year r =? selected_year)%Z) df.

(** [df[df["Year"] == selected_year].iloc[0]] *)
Definition target_row (df : list Row) (selected_year : Z) : outcome Row :=
  match rows_of_year df selected_year with
  | [] => Fails IndexError
  | r :: _ => Returns r
  end.



(** What the loop maintains on the value of the property and on the
    weekly rent: each has grown once for every year gone by. *)
Definition compounding (g : Globals) (yr : Z) (st : State) : Prop :=
  (1 <= yr)%Z /\
  current_value st
  = of_int (buy_price g) * (1 + capital_growth g) ^ Z.to_nat (yr - 1) /\
  current_weekly_rent st
  = of_int (weekly_rent g) * (1 + rental_growth g) ^ Z.to_nat (yr - 1).

(** * Arithmetic of [num] *)

(** Facts on [Qc] are proved on the underlying [Q], where [lra], [nra]
    and [field] apply. *)

Lemma this_Q2Qc (q : Q) : (this (Q2Qc q) == q)%Q.
Proof. exact (Qred_correct q). Qed.

Lemma this_plus (x y : Qc) : (this (x + y) == this x + this y)%Q.
Proof. exact (Qred_correct _). Qed.

Lemma this_mult (x y : Qc) : (this (x * y) == this x * this y)%Q.
Proof. exact (Qred_correct _). Qed.

Lemma this_opp (x : Qc) : (this (- x) == - this x)%Q.
Proof. exact (Qred_correct _). Qed.

Lemma this_minus (x y : Qc) : (this (x - y) == this x - this y)%Q.
Proof. unfold Qcminus. rewrite this_plus, this_opp. reflexivity. Qed.

Lemma this_inv (x : Qc) : (this (/ x) == / this x)%Q.
Proof. exact (Qred_correct _). Qed.

Lemma this_of_int (z : Z) : (this (of_int z) == inject_Z z)%Q.
Proof. exact (Qred_correct _). Qed.

Lemma Qc_eq_iff (x y : Qc) : x = y <-> (this x == this y)%Q.
Proof. split; [intros ->; reflexivity | apply Qc_is_canon]. Qed.

Ltac qc2q :=
  unfold Qcle, Qclt, Qcdiv in *;
  rewrite ?Qc_eq_iff in *;
  repeat (rewrite ?this_plus, ?this_minus, ?this_mult, ?this_opp,
            ?this_inv, ?this_of_int, ?this_Q2Qc in * );
  cbn [this] in *.

Ltac qc_lra := intros; qc2q; lra.
Ltac qc_nra := intros; qc2q; nra.

Lemma is_zero_true (x : num) : is_zero x = true <-> x = 0.
Proof.
  unfold is_zero, Qc_eq_bool. destruct (Qc_eq_dec x 0); split; congruence.
Qed.

Lemma is_zero_false (x : num) : is_zero x = false <-> x <> 0.
Proof.
  unfold is_zero, Qc_eq_bool. destruct (Qc_eq_dec x 0); split; congruence.
Qed.

Lemma of_int_le (a b : Z) : (a <= b)%Z <-> of_int a <= of_int b.
Proof. qc2q. rewrite Zle_Qle. reflexivity. Qed.

Lemma of_int_lt (a b : Z) : (a < b)%Z <-> of_int a < of_int b.
Proof. qc2q. rewrite Zlt_Qlt. reflexivity. Qed.

Lemma of_int_0 : of_int 0 = 0.
Proof. apply Qc_is_canon. reflexivity. Qed.

Lemma of_int_1 : of_int 1 = 1.
Proof. apply Qc_is_canon. reflexivity. Qed.

Lemma of_int_neq0 (z : Z) : z <> 0%Z -> of_int z <> 0.
Proof.
  intros Hz H. apply Hz. qc2q.
  unfold Qeq in H. cbn in H. lia.
Qed.

Lemma Qcinv_pos (x : Qc) : 0 < x -> 0 < / x.
Proof. qc2q. apply Qinv_lt_0_compat. Qed.

Lemma Qcinv_le_1 (x : Qc) : 1 <= x -> / x <= 1.
Proof.
  intros H. assert (Hx : 0 < x) by qc_lra.
  pose proof (Qcinv_pos _ Hx) as Hi.
  assert (E : / x * x = 1) by (apply Qcmult_inv_l; intros ->; qc_lra).
  qc_nra.
Qed.

Lemma Qcinv_lt_1 (x : Qc) : 1 < x -> / x < 1.
Proof.
  intros H. assert (Hx : 0 < x) by qc_lra.
  pose proof (Qcinv_pos _ Hx) as Hi.
  assert (E : / x * x = 1) by (apply Qcmult_inv_l; intros ->; qc_lra).
  qc_nra.
Qed.

Lemma Qcpower_S (x : Qc) (n : nat) : x ^ S n = x * x ^ n.
Proof. reflexivity. Qed.

Lemma Qcpower_ge_1 (x : Qc) (n : nat) : 1 <= x -> 1 <= x ^ n.
Proof.
  intros H. induction n as [|n IH].
  - cbn. qc_lra.
  - rewrite Qcpower_S. qc_nra.
Qed.

Lemma Qcpower_gt_1 (x : Qc) (n : nat) : 1 < x -> (0 < n)%nat -> 1 < x ^ n.
Proof.
  intros H Hn. destruct n as [|n]; [lia|].
  rewrite Qcpower_S.
  assert (1 <= x ^ n) by (apply Qcpower_ge_1; qc_lra).
  qc_nra.
Qed.

Lemma Qcpower_neq0 (x : Qc) (n : nat) : x <> 0 -> x ^ n <> 0.
Proof.
  intros H. induction n as [|n IH].
  - cbn. apply Q_apart_0_1.
  - rewrite Qcpower_S. intros E. apply Qcmult_integral in E. tauto.
Qed.

(** * [pow] and [calculate_pmt] *)

Lemma pow_nonzero_base (x : num) (e : Z) :
  x <> 0 -> exists y, pow x e = Ok y.
Proof.
  intros Hx. destruct e as [|p|p]; cbn; eauto.
  apply is_zero_false in Hx. rewrite Hx. eauto.
Qed.

Lemma pow_neg (x : num) (n : Z) :
  (0 < n)%Z -> x <> 0 -> pow x (- n) = Ok (/ (x ^ Z.to_nat n)).
Proof.
  intros Hn Hx. destruct n as [|p|p]; try lia. cbn.
  apply is_zero_false in Hx. now rewrite Hx.
Qed.

Lemma truediv_Ok (a b : num) : b <> 0 -> truediv a b = Ok (a / b).
Proof. intros Hb. unfold truediv. apply is_zero_false in Hb. now rewrite Hb. Qed.

(** With no interest the repayment is an equal share of the balance. *)
Lemma calculate_pmt_rate_0 (nper : Z) (pv : num) :
  (0 < nper)%Z -> calculate_pmt 0 nper pv = Ok (pv / of_int nper).
Proof.
  intros Hn. unfold calculate_pmt.
  replace (is_zero 0) with true by (symmetry; now apply is_zero_true).
  apply truediv_Ok, of_int_neq0. lia.
Qed.

(** With a positive rate it is the annuity formula, and its discount
    factor is strictly between [0] and [1]. *)
Lemma calculate_pmt_rate_pos (rate : num) (nper : Z) (pv : num) :
  0 < rate -> (0 < nper)%Z ->
  let p := / ((1 + rate) ^ Z.to_nat nper) in
  calculate_pmt rate nper pv = Ok (rate * pv / (1 - p)) /\ 0 < p /\ p < 1.
Proof.
  intros Hr Hn p.
  assert (H1 : 1 < 1 + rate) by qc_lra.
  assert (Hpw : 1 < (1 + rate) ^ Z.to_nat nper)
    by (apply Qcpower_gt_1; [assumption | lia]).
  assert (Hp0 : 0 < p) by (apply Qcinv_pos; qc_lra).
  assert (Hp1 : p < 1) by (apply Qcinv_lt_1; assumption).
  split; [|split; assumption].
  unfold calculate_pmt.
  replace (is_zero rate) with false
    by (symmetry; apply is_zero_false; intros ->; qc_lra).
  rewrite pow_neg by (try assumption; intros E; rewrite E in H1; qc_lra).
  cbn [bind]. fold p. apply truediv_Ok. intros E. qc_lra.
Qed.

Lemma calculate_pmt_total (rate : num) (nper : Z) (pv : num) :
  0 <= rate -> (0 < nper)%Z -> exists a, calculate_pmt rate nper pv = Ok a.
Proof.
  intros Hr Hn. destruct (Qc_eq_dec rate 0) as [->|Hne].
  - rewrite calculate_pmt_rate_0 by assumption. eauto.
  - assert (Hpos : 0 < rate).
    { destruct (Qcle_lt_or_eq _ _ Hr) as [H|H]; [assumption | congruence]. }
    destruct (calculate_pmt_rate_pos _ _ pv Hpos Hn) as [E _]. eauto.
Qed.

(** The principal part of a repayment is a share [k] of the balance that
    depends on the rate and on the years left only; it is the whole
    balance at most, and less when more than one year is left. *)
Lemma principal_share (rate : num) (nper : Z) :
  0 <= rate -> (0 < nper)%Z ->
  exists k,
    (forall pv a, calculate_pmt rate nper pv = Ok a -> a - pv * rate = pv * k)
    /\ 0 <= k /\ k <= 1 /\ ((1 < nper)%Z -> k < 1).
Proof.
  intros Hr Hn. destruct (Qc_eq_dec rate 0) as [->|Hne].
  - exists (/ of_int nper).
    assert (Hn1 : 1 <= of_int nper)
      by (rewrite <- of_int_1; apply (proj1 (of_int_le 1 nper)); lia).
    pose proof (Qcinv_le_1 _ Hn1) as Hi.
    assert (Hi0 : 0 < / of_int nper) by (apply Qcinv_pos; qc_lra).
    repeat split; try qc_lra.
    + intros pv a Ha. rewrite calculate_pmt_rate_0 in Ha by assumption.
      injection Ha as <-. unfold Qcdiv. ring.
    + intros Hn2. apply Qcinv_lt_1. rewrite <- of_int_1.
      apply (proj1 (of_int_lt 1 nper)). lia.
  - assert (Hpos : 0 < rate).
    { destruct (Qcle_lt_or_eq _ _ Hr) as [H|H]; [assumption | congruence]. }
    destruct (calculate_pmt_rate_pos _ _ 0 Hpos Hn) as (_ & Hp0 & Hp1).
    cbv zeta in Hp0, Hp1.
    set (p := / (1 + rate) ^ Z.to_nat nper) in *.
    assert (Hq : / (1 - p) * (1 - p) = 1)
      by (apply Qcmult_inv_l; intros E'; qc_lra).
    assert (Hq0 : 0 < / (1 - p)) by (apply Qcinv_pos; qc_lra).
    assert (H1r : 1 + rate <> 0) by (clear - Hpos; intros E'; qc_lra).
    (* [p * (1 + rate)] is the discount factor over one year less *)
    assert (Hpr : p * (1 + rate) = / (1 + rate) ^ (Z.to_nat nper - 1)).
    { subst p. destruct (Z.to_nat nper) as [|n] eqn:En; [lia|].
      rewrite Qcpower_S. cbn [Nat.sub]. rewrite Nat.sub_0_r.
      assert (Hpn : (1 + rate) ^ n <> 0) by (now apply Qcpower_neq0).
      field; tauto. }
    assert (Hpr1 : p * (1 + rate) <= 1).
    { rewrite Hpr. apply Qcinv_le_1, Qcpower_ge_1. qc_lra. }
    exists (rate * p * / (1 - p)). split; [|split; [|split]].
    + intros pv a Ha.
      destruct (calculate_pmt_rate_pos _ _ pv Hpos Hn) as (E & _).
      cbv zeta in E. fold p in E. rewrite E in Ha. injection Ha as <-.
      field. intros E'. qc_lra.
    + qc_nra.
    + assert (Hx : rate * p <= 1 - p) by qc_nra.
      replace 1 with ((1 - p) * / (1 - p)) at 2
        by (rewrite Qcmult_comm; exact Hq).
      apply Qcmult_le_compat_r; [exact Hx | qc_lra].
    + intros Hn2.
      assert (Hpr2 : p * (1 + rate) < 1).
      { rewrite Hpr. apply Qcinv_lt_1, Qcpower_gt_1; [qc_lra | lia]. }
      assert (Hx : rate * p < 1 - p) by qc_nra.
      replace 1 with ((1 - p) * / (1 - p)) at 2
        by (rewrite Qcmult_comm; exact Hq).
      apply Qcmult_lt_compat_r; [exact Hq0 | exact Hx].
Qed.

(** The principal part of a repayment lies between nothing and the whole
    balance. *)
Lemma principal_bounds (rate : num) (nper : Z) (pv a : num) :
  0 <= rate -> (0 < nper)%Z -> 0 <= pv ->
  calculate_pmt rate nper pv = Ok a ->
  0 <= a - pv * rate /\ a - pv * rate <= pv.
Proof.
  intros Hr Hn Hpv Ha.
  destruct (principal_share _ _ Hr Hn) as (k & Hk & Hk0 & Hk1 & _).
  rewrite (Hk _ _ Ha). split; qc_nra.
Qed.



(** * The loop body *)

Lemma one_plus_cpi_neq0 : 1 + cpi <> 0.
Proof. intros E. apply (f_equal this) in E. vm_compute in E. discriminate. Qed.

Lemma inflation_total (yr : Z) : exists m, pow (1 + cpi) (yr - 1) = Ok m.
Proof. apply pow_nonzero_base, one_plus_cpi_neq0. Qed.

Ltac body_inv H :=
  let Hrep := fresh "Hrep" in
  let Hinf := fresh "Hinf" in
  unfold body in H;
  destruct (repayment _ _ _) as [[? ?]|] eqn:Hrep; [|discriminate H];
  cbn [bind] in H;
  destruct (pow (1 + cpi) _) as [?|] eqn:Hinf; [|discriminate H];
  cbn [bind] in H;
  injection H as <-.

(** What a frame holds, in terms of the state the year starts from. *)
Lemma body_spec (g : Globals) (st : State) (yr : Z) (fr : Frame) :
  body g st yr = Ok fr ->
  year fr = yr /\
  repayment g st yr = Ok (interest_payment fr, principal_payment fr) /\
  loan_amount (vars fr) = loan_amount st - principal_payment fr /\
  cumulative_cashflow (vars fr) = cumulative_cashflow st + post_tax_cashflow fr /\
  current_value (vars fr) = current_value st * (1 + capital_growth g) /\
  current_depreciation (vars fr) = current_depreciation st /\
  current_weekly_rent (vars fr) = current_weekly_rent st.
Proof. intros H. body_inv H. cbn. repeat split; reflexivity || assumption. Qed.

(** The tax lines of a frame. *)
Lemma body_tax (g : Globals) (st : State) (yr : Z) (fr : Frame) :
  body g st yr = Ok fr ->
  tax_deductible_expenses fr
  = interest_payment fr + current_fixed_expenses fr + mgmt_fee fr
    + maintenance fr + current_depreciation (vars fr) /\
  taxable_income fr = effective_rent fr - tax_deductible_expenses fr /\
  tax_impact fr = taxable_income fr * tax_rate g /\
  post_tax_cashflow fr = pre_tax_cashflow fr - tax_impact fr.
Proof. intros H. body_inv H. cbn. repeat split; reflexivity. Qed.

Lemma repayment_IO (g : Globals) (st : State) (yr : Z) :
  repayment_type g = IO ->
  repayment g st yr = Ok (loan_amount st * interest_rate g, 0).
Proof. intros E. unfold repayment. now rewrite E. Qed.

Lemma repayment_PI_running (g : Globals) (st : State) (yr : Z) :
  repayment_type g = PI -> (yr <= loan_term)%Z ->
  repayment g st yr =
    (a <- calculate_pmt (interest_rate g) (loan_term - (yr - 1)) (loan_amount st) ;;
     Ok (loan_amount st * interest_rate g, a - loan_amount st * interest_rate g)).
Proof.
  intros E Hyr. unfold repayment. rewrite E.
  replace (0 <? loan_term - (yr - 1))%Z with true
    by (symmetry; apply Z.ltb_lt; lia).
  reflexivity.
Qed.

Lemma repayment_PI_over (g : Globals) (st : State) (yr : Z) :
  repayment_type g = PI -> (loan_term < yr)%Z ->
  repayment g st yr = Ok (0, 0).
Proof.
  intros E Hyr. unfold repayment. rewrite E.
  replace (0 <? loan_term - (yr - 1))%Z with false
    by (symmetry; apply Z.ltb_ge; lia).
  reflexivity.
Qed.

Lemma repayment_total (g : Globals) (st : State) (yr : Z) :
  (repayment_type g = PI -> 0 <= interest_rate g) ->
  exists ip pp, repayment g st yr = Ok (ip, pp).
Proof.
  intros Hr. destruct (repayment_type g) eqn:E.
  - rewrite repayment_IO by assumption. eauto.
  - destruct (Z_le_gt_dec yr loan_term) as [Hyr|Hyr].
    + rewrite repayment_PI_running by assumption.
      destruct (calculate_pmt_total (interest_rate g)
                  (loan_term - (yr - 1)) (loan_amount st)) as [a Ha];
        [auto | lia |].
      rewrite Ha. cbn. eauto.
    + rewrite repayment_PI_over by (assumption || lia). eauto.
Qed.

(** Under interest-only repayment, or with a non-negative rate, no year
    raises. *)
Lemma body_total (g : Globals) (st : State) (yr : Z) :
  (repayment_type g = PI -> 0 <= interest_rate g) ->
  exists fr, body g st yr = Ok fr.
Proof.
  intros Hr. unfold body.
  destruct (repayment_total g st yr Hr) as (ip & pp & ->).
  destruct (inflation_total yr) as [m ->]. cbn. eauto.
Qed.

(** * The loop *)

Lemma loop_steps (g : Globals) (n : nat) :
  forall yr st frs,
    loop g n yr st = Ok frs -> steps g yr st frs /\ length frs = n.
Proof.
  induction n as [|n IH]; intros yr st frs H; cbn in H.
  - injection H as <-. split; [constructor | reflexivity].
  - destruct (body g st yr) as [fr|] eqn:Hb; [|discriminate]. cbn in H.
    destruct (loop g n (yr + 1) (advance g fr)) as [rest|] eqn:Hl;
      [|discriminate].
    cbn in H. injection H as <-. destruct (IH _ _ _ Hl) as [Hs Hlen].
    split; [now constructor | cbn; now rewrite Hlen].
Qed.

Lemma loop_total (g : Globals) (n : nat) :
  (repayment_type g = PI -> 0 <= interest_rate g) ->
  forall yr st, exists frs, loop g n yr st = Ok frs.
Proof.
  intros Hr. induction n as [|n IH]; intros yr st; cbn; eauto.
  destruct (body_total g st yr Hr) as [fr ->]. cbn.
  destruct (IH (yr + 1)%Z (advance g fr)) as [rest ->]. cbn. eauto.
Qed.

Lemma valid_no_raise (g : Globals) :
  valid g -> repayment_type g = PI -> 0 <= interest_rate g.
Proof. intros V _. apply V. Qed.

(** On valid inputs the loop runs to its end: [frames] returns, with one
    frame for each year. *)
Lemma frames_total (g : Globals) (years : Z) :
  (repayment_type g = PI -> 0 <= interest_rate g) ->
  exists frs, frames g years = Ok frs /\ steps g 1 (init g) frs
              /\ length frs = Z.to_nat years.
Proof.
  intros Hr. unfold frames.
  destruct (loop_total g (Z.to_nat years) Hr 1%Z (init g)) as [frs H].
  exists frs. split; [assumption|]. now apply loop_steps.
Qed.

Lemma calculate_data_frames (g : Globals) (years : Z) (frs : list Frame) :
  frames g years = Ok frs -> calculate_data g years = Ok (map (row_of) frs).
Proof. intros H. unfold calculate_data. now rewrite H. Qed.

(** The years of consecutive frames are consecutive. *)
Lemma steps_years (g : Globals) (yr : Z) (st : State) (frs : list Frame) :
  steps g yr st frs ->
  map year frs = map (fun i => (yr + Z.of_nat i)%Z) (seq 0 (length frs)).
Proof.
  induction 1 as [|yr st fr frs Hb _ IH]; [reflexivity|].
  cbn [map length seq]. f_equal.
  - apply body_spec in Hb. rewrite (proj1 Hb). lia.
  - rewrite IH, <- seq_shift, map_map. apply map_ext. intros i. lia.
Qed.

(** Every frame is the body run on a state that satisfies whatever the
    loop maintains; that state is the initial one, or the one the frame
    before was advanced to. *)
Lemma steps_nth (g : Globals) (P : Z -> State -> Prop) :
  (forall yr st fr, P yr st -> body g st yr = Ok fr ->
                    P (yr + 1)%Z (advance g fr)) ->
  forall yr st frs,
    steps g yr st frs -> P yr st ->
    forall k fr,
      nth_error frs k = Some fr ->
      exists stk,
        P (yr + Z.of_nat k)%Z stk /\
        body g stk (yr + Z.of_nat k) = Ok fr /\
        match k with
        | O => stk = st
        | S k' => exists fr', nth_error frs k' = Some fr' /\ stk = advance g fr'
        end.
Proof.
  intros Hstep yr st frs Hs. induction Hs as [|yr st fr0 frs Hb Hs IH];
    intros HP k fr Hk.
  - destruct k; discriminate.
  - destruct k as [|k]; cbn in Hk.
    + injection Hk as <-. exists st. rewrite Z.add_0_r. auto.
    + destruct (IH (Hstep _ _ _ HP Hb) k fr Hk) as (stk & HPk & Hbk & Hprev).
      exists stk. replace (yr + Z.of_nat (S k))%Z with (yr + 1 + Z.of_nat k)%Z
        by lia.
      repeat split; try assumption.
      destruct k as [|k'].
      * subst stk. exists fr0. auto.
      * destruct Hprev as (fr' & Hn & ->). exists fr'. auto.
Qed.

(** * Concrete inputs are valid *)

Ltac qc_decide :=
  vm_compute; solve [reflexivity | discriminate | intro; discriminate].

Ltac valid_tac :=
  constructor; cbn; repeat split;
  solve [lia | qc_decide | auto 6 using in_eq, in_cons].

Lemma defaults_valid : valid defaults.
Proof. valid_tac. Qed.

Lemma defaults_PI_valid : valid defaults_PI.
Proof. valid_tac. Qed.

Lemma defaults_flat_valid : valid defaults_flat.
Proof. valid_tac. Qed.

(** * The yearly records *)




(** * The loan balance *)

Lemma advance_loan_amount (g : Globals) (fr : Frame) :
  loan_amount (advance g fr) = loan_amount (vars fr).
Proof. reflexivity. Qed.

(** Interest only: the interest is paid and the balance stays. *)
Lemma frame_IO (g : Globals) (st : State) (yr : Z) (fr : Frame) :
  repayment_type g = IO -> body g st yr = Ok fr ->
  interest_payment fr = loan_amount st * interest_rate g /\
  principal_payment fr = 0 /\
  loan_amount (vars fr) = loan_amount st.
Proof.
  intros E Hb. destruct (body_spec _ _ _ _ Hb) as (_ & Hrep & Hl & _).
  rewrite repayment_IO in Hrep by assumption. injection Hrep as Hi Hp.
  rewrite Hl, <- Hi, <- Hp. repeat split. ring.
Qed.

(** Principal and interest, within the term: the repayment of
    [calculate_pmt] for the years left, split in interest and principal. *)
Lemma frame_PI_running (g : Globals) (st : State) (yr : Z) (fr : Frame) :
  repayment_type g = PI -> (yr <= loan_term)%Z -> body g st yr = Ok fr ->
  exists a,
    calculate_pmt (interest_rate g) (loan_term - (yr - 1)) (loan_amount st)
    = Ok a /\
    interest_payment fr = loan_amount st * interest_rate g /\
    principal_payment fr = a - loan_amount st * interest_rate g /\
    loan_amount (vars fr)
    = loan_amount st - (a - loan_amount st * interest_rate g).
Proof.
  intros E Hyr Hb. destruct (body_spec _ _ _ _ Hb) as (_ & Hrep & Hl & _).
  rewrite repayment_PI_running in Hrep by assumption.
  destruct (calculate_pmt _ _ _) as [a|]; [|discriminate]. cbn in Hrep.
  injection Hrep as Hi Hp. exists a. rewrite Hl, <- Hi, <- Hp. auto.
Qed.

(** Principal and interest, after the term: nothing is paid. *)
Lemma frame_PI_over (g : Globals) (st : State) (yr : Z) (fr : Frame) :
  repayment_type g = PI -> (loan_term < yr)%Z -> body g st yr = Ok fr ->
  interest_payment fr = 0 /\ principal_payment fr = 0 /\
  loan_amount (vars fr) = loan_amount st.
Proof.
  intros E Hyr Hb. destruct (body_spec _ _ _ _ Hb) as (_ & Hrep & Hl & _).
  rewrite repayment_PI_over in Hrep by assumption. injection Hrep as Hi Hp.
  rewrite Hl, <- Hi, <- Hp. repeat split. ring.
Qed.




(** The balance never goes below zero when it starts there and the rate
    is not negative. *)
Lemma balance_nonneg_step (g : Globals) :
  0 <= interest_rate g ->
  forall yr st fr,
    0 <= loan_amount st -> body g st yr = Ok fr ->
    0 <= loan_amount (vars fr) /\ loan_amount (vars fr) <= loan_amount st.
Proof.
  intros Hr yr st fr Hst Hb. destruct (repayment_type g) eqn:E.
  - destruct (frame_IO _ _ _ _ E Hb) as (_ & _ & ->). split; qc_lra.
  - destruct (Z_le_gt_dec yr loan_term) as [Hyr|Hyr].
    + destruct (frame_PI_running _ _ _ _ E Hyr Hb) as (a & Ha & _ & _ & ->).
      destruct (principal_bounds _ (loan_term - (yr - 1))%Z _ _ Hr
                  ltac:(lia) Hst Ha) as [H0 H1].
      split; qc_lra.
    + destruct (frame_PI_over g st yr fr E) as (_ & _ & ->);
        [lia | assumption | split; qc_lra].
Qed.

Lemma initial_loan_nonneg (g : Globals) :
  valid g -> 0 <= initial_loan_amount g.
Proof.
  intros V. unfold initial_loan_amount.
  assert (Hp : 0 <= of_int (buy_price g)).
  { rewrite <- of_int_0. apply (proj1 (of_int_le 0 (buy_price g))).
    pose proof (valid_buy_price g V). lia. }
  pose proof (proj1 (valid_loan_ratio g V)) as Hl. qc_nra.
Qed.

(** C4.  On valid inputs, over the whole horizon: under principal and
    interest the balance of a year is at most the balance of the year
    before (the initial loan, for the first year); under interest only
    the balance of every year is the initial loan. *)
Theorem loan_balance_monotone (g : Globals) (years : Z) :
  valid g ->
  exists frs,
    frames g years = Ok frs /\
    (repayment_type g = PI ->
       (forall fr, nth_error frs 0 = Some fr ->
          loan_amount (vars fr) <= initial_loan_amount g) /\
       (forall k a b,
          nth_error frs k = Some a -> nth_error frs (S k) = Some b ->
          loan_amount (vars b) <= loan_amount (vars a))) /\
    (repayment_type g = IO ->
       forall fr, In fr frs -> loan_amount (vars fr) = initial_loan_amount g).
Proof.
  intros V. pose proof (valid_interest_rate g V) as Hr.
  destruct (frames_total g years (valid_no_raise g V))
    as (frs & Hf & Hs & _).
  exists frs. split; [assumption|]. split.
  - intros _.
    pose proof (steps_nth g (fun _ st => 0 <= loan_amount st)
                  (fun yr st fr H Hb =>
                     proj1 (balance_nonneg_step g Hr yr st fr H Hb))
                  _ _ _ Hs (initial_loan_nonneg g V)) as Hnth.
    split.
    + intros fr Hk. destruct (Hnth 0%nat fr Hk) as (stk & HP & Hb & ->).
      apply (balance_nonneg_step g Hr _ _ _ HP Hb).
    + intros k a b Ha Hk.
      destruct (Hnth (S k) b Hk) as (stk & HP & Hb & a' & Ha' & ->).
      assert (a' = a) by congruence. subst a'.
      apply (balance_nonneg_step g Hr _ _ _ HP Hb).
  - intros E.
    pose proof (steps_nth g (fun _ st => loan_amount st = initial_loan_amount g))
      as Hnth.
    intros fr Hin. apply In_nth_error in Hin. destruct Hin as [k Hk].
    destruct (Hnth
                (fun yr st fr H Hb =>
                   eq_trans (proj2 (proj2 (frame_IO g st yr fr E Hb))) H)
                _ _ _ Hs eq_refl k fr Hk) as (stk & HP & Hb & _).
    destruct (frame_IO _ _ _ _ E Hb) as (_ & _ & ->). exact HP.
Qed.

Lemma loan_balance_monotone_witness :
  valid defaults_PI /\
  exists frs,
    frames defaults_PI 30 = Ok frs /\
    (repayment_type defaults_PI = PI ->
       (forall fr, nth_error frs 0 = Some fr ->
          loan_amount (vars fr) <= initial_loan_amount defaults_PI) /\
       (forall k a b,
          nth_error frs k = Some a -> nth_error frs (S k) = Some b ->
          loan_amount (vars b) <= loan_amount (vars a))) /\
    (repayment_type defaults_PI = IO ->
       forall fr, In fr frs ->
         loan_amount (vars fr) = initial_loan_amount defaults_PI).
Proof.
  split; [exact defaults_PI_valid|].
  exact (loan_balance_monotone defaults_PI 30 defaults_PI_valid).
Defined.

(** * The cumulative cashflow *)

Lemma steps_cumulative (g : Globals) (yr : Z) (st : State) (frs : list Frame) :
  steps g yr st frs ->
  forall k fr,
    nth_error frs k = Some fr ->
    cumulative_cashflow (vars fr)
    = fold_left Qcplus (map post_tax_cashflow (firstn (S k) frs))
        (cumulative_cashflow st).
Proof.
  induction 1 as [|yr st fr0 frs Hb _ IH]; intros k fr Hk.
  - destruct k; discriminate.
  - destruct (body_spec _ _ _ _ Hb) as (_ & _ & _ & Hc & _).
    destruct k as [|k]; cbn in Hk.
    + injection Hk as <-. cbn. destruct frs; exact Hc.
    + rewrite (IH k fr Hk). rewrite firstn_cons. cbn [map fold_left].
      now rewrite <- Hc.
Qed.

(** C5.  On valid inputs, the [cumulative_cashflow] at the record of
    year [k] is the sum of the [post_tax_cashflow] of the years [1] to
    [k]; it is kept as a running total, each year adding its
    [post_tax_cashflow] to the total of the year before. *)
Theorem cumulative_cashflow_is_sum (g : Globals) (years : Z) :
  valid g ->
  exists frs,
    frames g years = Ok frs /\
    (forall k fr,
       nth_error frs k = Some fr ->
       year fr = Z.of_nat (S k) /\
       cumulative_cashflow (vars fr)
       = sum_num (map post_tax_cashflow (firstn (S k) frs))) /\
    (forall fr, nth_error frs 0 = Some fr ->
       cumulative_cashflow (vars fr) = 0 + post_tax_cashflow fr) /\
    (forall k a b,
       nth_error frs k = Some a -> nth_error frs (S k) = Some b ->
       cumulative_cashflow (vars b)
       = cumulative_cashflow (vars a) + post_tax_cashflow b).
Proof.
  intros V.
  destruct (frames_total g years (valid_no_raise g V))
    as (frs & Hf & Hs & _).
  exists frs. split; [assumption|].
  pose proof (steps_nth g (fun _ _ => True) (fun _ _ _ _ _ => I)
                _ _ _ Hs I) as Hnth.
  split; [|split].
  - intros k fr Hk. split.
    + destruct (Hnth k fr Hk) as (stk & _ & Hb & _).
      destruct (body_spec _ _ _ _ Hb) as (Hy & _). rewrite Hy. lia.
    + exact (steps_cumulative g _ _ _ Hs k fr Hk).
  - intros fr Hk. destruct (Hnth 0%nat fr Hk) as (stk & _ & Hb & ->).
    destruct (body_spec _ _ _ _ Hb) as (_ & _ & _ & Hc & _). exact Hc.
  - intros k a b Ha Hk.
    destruct (Hnth (S k) b Hk) as (stk & _ & Hb & a' & Ha' & ->).
    assert (a' = a) by congruence. subst a'.
    destruct (body_spec _ _ _ _ Hb) as (_ & _ & _ & Hc & _). exact Hc.
Qed.

Lemma cumulative_cashflow_is_sum_witness :
  valid defaults /\
  exists frs,
    frames defaults 30 = Ok frs /\
    (forall k fr,
       nth_error frs k = Some fr ->
       year fr = Z.of_nat (S k) /\
       cumulative_cashflow (vars fr)
       = sum_num (map post_tax_cashflow (firstn (S k) frs))) /\
    (forall fr, nth_error frs 0 = Some fr ->
       cumulative_cashflow (vars fr) = 0 + post_tax_cashflow fr) /\
    (forall k a b,
       nth_error frs k = Some a -> nth_error frs (S k) = Some b ->
       cumulative_cashflow (vars b)
       = cumulative_cashflow (vars a) + post_tax_cashflow b).
Proof.
  split; [exact defaults_valid|].
  exact (cumulative_cashflow_is_sum defaults 30 defaults_valid).
Defined.

(** * Tax *)

Lemma tax_rate_options_pos (r : num) : In r tax_rate_options -> 0 < r.
Proof.
  unfold tax_rate_options. cbn.
  intros [<-|[<-|[<-|[]]]]; qc_decide.
Qed.

(** A loss is refunded at any positive tax rate. *)
Lemma refund_on_loss (g : Globals) (st : State) (yr : Z) (fr : Frame) :
  0 < tax_rate g -> body g st yr = Ok fr ->
  taxable_income fr < 0 ->
  tax_impact fr < 0 /\ pre_tax_cashflow fr < post_tax_cashflow fr.
Proof.
  intros Ht Hb Hneg. destruct (body_tax _ _ _ _ Hb) as (_ & _ & -> & ->).
  assert (taxable_income fr * tax_rate g < 0) by qc_nra.
  split; qc_lra.
Qed.

(** C6.  On valid inputs, in every year: the taxable income is the
    effective rent minus the deductible expenses, depreciation included;
    when it is negative the tax impact is negative and the cashflow after
    tax is strictly greater than the cashflow before tax. *)
Theorem negative_taxable_income_refund (g : Globals) (years : Z) :
  valid g ->
  exists frs,
    frames g years = Ok frs /\
    forall fr, In fr frs ->
      taxable_income fr
      = effective_rent fr
        - (interest_payment fr + current_fixed_expenses fr + mgmt_fee fr
           + maintenance fr + current_depreciation (vars fr)) /\
      (taxable_income fr < 0 ->
         tax_impact fr < 0 /\ pre_tax_cashflow fr < post_tax_cashflow fr).
Proof.
  intros V.
  destruct (frames_total g years (valid_no_raise g V))
    as (frs & Hf & Hs & _).
  exists frs. split; [assumption|].
  pose proof (steps_nth g (fun _ _ => True) (fun _ _ _ _ _ => I)
                _ _ _ Hs I) as Hnth.
  intros fr Hin. apply In_nth_error in Hin. destruct Hin as [k Hk].
  destruct (Hnth k fr Hk) as (stk & _ & Hb & _). split.
  - destruct (body_tax _ _ _ _ Hb) as (Hd & -> & _). now rewrite Hd.
  - apply (refund_on_loss g stk (1 + Z.of_nat k)%Z fr); [|assumption].
    apply tax_rate_options_pos, (valid_tax_rate g V).
Qed.

Lemma negative_taxable_income_refund_witness :
  valid defaults /\
  exists frs,
    frames defaults 10 = Ok frs /\
    forall fr, In fr frs ->
      taxable_income fr
      = effective_rent fr
        - (interest_payment fr + current_fixed_expenses fr + mgmt_fee fr
           + maintenance fr + current_depreciation (vars fr)) /\
      (taxable_income fr < 0 ->
         tax_impact fr < 0 /\ pre_tax_cashflow fr < post_tax_cashflow fr).
Proof.
  split; [exact defaults_valid|].
  exact (negative_taxable_income_refund defaults 10 defaults_valid).
Defined.

(** With the default inputs the first year makes a loss: the case of
    C6 occurs. *)
Lemma defaults_first_year_loss :
  exists fr rest,
    frames defaults 10 = Ok (fr :: rest) /\ taxable_income fr < 0.
Proof.
  destruct (frames defaults 10) as [[|fr rest]|] eqn:E;
    [vm_compute in E; discriminate | | vm_compute in E; discriminate].
  exists fr, rest. split; [reflexivity|].
  vm_compute in E. injection E as <- _. qc_decide.
Qed.

(** * The example scenario *)

(** The rent lines of a frame. *)
Lemma body_rent (g : Globals) (st : State) (yr : Z) (fr : Frame) :
  body g st yr = Ok fr ->
  annual_rent_gross fr = current_weekly_rent st * of_int 52 /\
  vacancy_loss fr = annual_rent_gross fr * vacancy_rate g /\
  effective_rent fr = annual_rent_gross fr - vacancy_loss fr.
Proof. intros H. body_inv H. cbn. repeat split; reflexivity. Qed.

(** The first frame is the body run on the initial state. *)
Lemma frames_first (g : Globals) (years : Z) (frs : list Frame) :
  (0 < years)%Z -> frames g years = Ok frs ->
  exists fr rest, frs = fr :: rest /\ body g (init g) 1 = Ok fr.
Proof.
  intros Hy Hf. unfold frames in Hf. apply loop_steps in Hf.
  destruct Hf as [Hs Hlen]. destruct Hs as [|yr st fr rest Hb _].
  - cbn in Hlen. lia.
  - eauto.
Qed.

Ltac qc_compute := apply Qc_is_canon; vm_compute; reflexivity.

(** C7.  For the example scenario (price 650000, loan ratio 0.8, interest
    rate 0.061, interest only, weekly rent 650, vacancy 0.04, capital
    growth 0.05), whatever the other inputs and the positive horizon, the
    first year has a gross rent of 33800, an effective rent of 32448, an
    interest of 31720, no principal, a balance still at 520000 and a
    market value of 650000 x 1.05 = 682500. *)
Theorem example_scenario_first_year (g : Globals) (years : Z) :
  buy_price g = 650000%Z -> loan_ratio g = dec 8 10 ->
  interest_rate g = dec 61 1000 -> repayment_type g = IO ->
  weekly_rent g = 650%Z -> vacancy_rate g = dec 4 100 ->
  capital_growth g = dec 5 100 -> (0 < years)%Z ->
  exists fr rest,
    frames g years = Ok (fr :: rest) /\
    year fr = 1%Z /\
    annual_rent_gross fr = of_int 33800 /\
    effective_rent fr = of_int 32448 /\
    interest_payment fr = of_int 31720 /\
    principal_payment fr = 0 /\
    loan_amount (init g) = of_int 520000 /\
    loan_amount (vars fr) = of_int 520000 /\
    current_value (vars fr) = of_int 650000 * dec 105 100 /\
    Market_Value (row_of fr) = 682500%Z /\
    Annual_Rent (row_of fr) = 32448%Z.
Proof.
  intros Hprice Hratio Hrate Hio Hrent Hvac Hgrowth Hyears.
  destruct (frames_total g years) as (frs & Hf & _);
    [rewrite Hio; discriminate|].
  destruct (frames_first g years frs Hyears Hf) as (fr & rest & -> & Hb).
  exists fr, rest. split; [assumption|].
  destruct (body_spec _ _ _ _ Hb) as (Hy & _ & _ & _ & Hv & _).
  destruct (body_rent _ _ _ _ Hb) as (Hg & Hl & He).
  destruct (frame_IO _ _ _ _ Hio Hb) as (Hi & Hp & Hbal).
  assert (Hloan : loan_amount (init g) = of_int 520000).
  { cbn. unfold initial_loan_amount. rewrite Hprice, Hratio. qc_compute. }
  assert (Hgross : annual_rent_gross fr = of_int 33800).
  { rewrite Hg. cbn. rewrite Hrent. qc_compute. }
  assert (Heff : effective_rent fr = of_int 32448).
  { rewrite He, Hl, Hgross, Hvac. qc_compute. }
  assert (Hval : current_value (vars fr) = of_int 650000 * dec 105 100).
  { rewrite Hv. cbn. rewrite Hprice, Hgrowth. qc_compute. }
  repeat split; try assumption.
  - rewrite Hi, Hloan, Hrate. qc_compute.
  - now rewrite Hbal.
  - cbn. rewrite Hval. reflexivity.
  - cbn. rewrite Heff. reflexivity.
Qed.

Lemma example_scenario_first_year_witness :
  exists fr rest,
    frames defaults 10 = Ok (fr :: rest) /\
    year fr = 1%Z /\
    annual_rent_gross fr = of_int 33800 /\
    effective_rent fr = of_int 32448 /\
    interest_payment fr = of_int 31720 /\
    principal_payment fr = 0 /\
    loan_amount (init defaults) = of_int 520000 /\
    loan_amount (vars fr) = of_int 520000 /\
    current_value (vars fr) = of_int 650000 * dec 105 100 /\
    Market_Value (row_of fr) = 682500%Z /\
    Annual_Rent (row_of fr) = 32448%Z.
Proof.
  apply (example_scenario_first_year defaults 10);
    solve [reflexivity | qc_compute | lia].
Defined.

(** * The example scenario in binary64 *)

(** The figures of C7 computed as Python computes them, in binary64 with
    every operation rounded to nearest: the sliders and the interest rate
    are divided by [100], the integer inputs are converted to floats;
    [0x1.8666666666666p+2] is the binary64 number the literal [6.1]
    denotes.  The rounded results are the exact ones. *)
Lemma example_scenario_binary64 :
  (650 * 52 = 33800)%Z /\
  (33800 * (4 / 100) = 1352)%float /\
  (33800 - 1352 = 32448)%float /\
  (650000 * (80 / 100) = 520000)%float /\
  (520000 * (0x1.8666666666666p+2 / 100) = 31720)%float /\
  (650000 * (1 + 5 / 100) = 682500)%float.
Proof. repeat split; vm_compute; reflexivity. Qed.

(** * Depreciation *)

Lemma depreciating_step (g : Globals) (yr : Z) (st : State) (fr : Frame) :
  depreciating g yr st -> body g st yr = Ok fr ->
  depreciating g (yr + 1) (advance g fr).
Proof.
  intros [Hyr Hd] Hb. split; [lia|].
  destruct (body_spec _ _ _ _ Hb) as (_ & _ & _ & _ & _ & Hcd & _).
  cbn [advance current_depreciation]. rewrite Hcd, Hd.
  replace (Z.to_nat (yr + 1 - 1)) with (S (Z.to_nat (yr - 1))) by lia.
  rewrite Qcpower_S. ring.
Qed.

Lemma one_minus_decay : 1 - dec 1 10 = dec 9 10.
Proof. qc_compute. Qed.

(** C8, as the code has it.  On valid inputs, the depreciation deducted
    in year [k] is the first year's amount times [0.9 ^ (k - 1)]: the
    formula of the specification at the decay rate [0.1], which the code
    fixes and no input changes. *)
Theorem depreciation_fixed_decay (g : Globals) (years : Z) :
  valid g ->
  exists frs,
    frames g years = Ok frs /\
    forall fr, In fr frs ->
      current_depreciation (vars fr)
      = spec_depreciation (depreciation_first_year g) (dec 1 10) (year fr) /\
      tax_deductible_expenses fr
      = interest_payment fr + current_fixed_expenses fr + mgmt_fee fr
        + maintenance fr + current_depreciation (vars fr).
Proof.
  intros V.
  destruct (frames_total g years (valid_no_raise g V))
    as (frs & Hf & Hs & _).
  exists frs. split; [assumption|].
  assert (H0 : depreciating g 1 (init g)).
  { split; [lia|]. cbn. ring. }
  pose proof (steps_nth g (depreciating g) (depreciating_step g)
                _ _ _ Hs H0) as Hnth.
  intros fr Hin. apply In_nth_error in Hin. destruct Hin as [k Hk].
  destruct (Hnth k fr Hk) as (stk & [_ Hd] & Hb & _).
  destruct (body_spec _ _ _ _ Hb) as (Hy & _ & _ & _ & _ & Hcd & _).
  split.
  - unfold spec_depreciation. rewrite one_minus_decay, Hcd, Hd, Hy.
    reflexivity.
  - apply (body_tax _ _ _ _ Hb).
Qed.

Lemma depreciation_fixed_decay_witness :
  valid defaults /\
  exists frs,
    frames defaults 10 = Ok frs /\
    forall fr, In fr frs ->
      current_depreciation (vars fr)
      = spec_depreciation (depreciation_first_year defaults) (dec 1 10)
          (year fr) /\
      tax_deductible_expenses fr
      = interest_payment fr + current_fixed_expenses fr + mgmt_fee fr
        + maintenance fr + current_depreciation (vars fr).
Proof.
  split; [exact defaults_valid|].
  exact (depreciation_fixed_decay defaults 10 defaults_valid).
Defined.

(** C8, as stated, fails: with the default inputs and a decay rate of
    [0.5] supplied, the depreciation of year 2 is [7200], not
    [8000 x 0.5]. *)
Lemma depreciation_ignores_supplied_decay :
  valid defaults /\ 0 <= dec 1 2 /\ dec 1 2 <= 1 /\
  exists fr1 fr2,
    frames defaults 2 = Ok [fr1; fr2] /\ year fr2 = 2%Z /\
    current_depreciation (vars fr2) = of_int 7200 /\
    current_depreciation (vars fr2)
    <> spec_depreciation (depreciation_first_year defaults) (dec 1 2)
         (year fr2).
Proof.
  split; [exact defaults_valid|].
  split; [qc_decide|]. split; [qc_decide|].
  destruct (frames defaults 2) as [[|fr1 [|fr2 [|fr3 rest]]]|] eqn:E;
    try (vm_compute in E; discriminate).
  exists fr1, fr2. split; [reflexivity|].
  vm_compute in E. injection E as <- <-.
  split; [reflexivity|]. split; [qc_compute|].
  intros H. apply (f_equal this) in H. vm_compute in H. discriminate.
Qed.

(** * [int] *)

Lemma int_of_int (z : Z) : int (of_int z) = z.
Proof.
  unfold int, of_int, Q2Qc, inject_Z. cbn [this].
  rewrite Qred_identity by (cbn; apply Z.gcd_1_r).
  cbn. apply Z.quot_1_r.
Qed.

(** [int] truncates toward zero. *)
Lemma int_truncates (x : num) : truncates (int x) x.
Proof.
  unfold truncates, int. qc2q. destruct x as [[n d] Hc].
  cbn [this Qnum Qden]. clear Hc.
  pose proof (Z.quot_rem' n (Z.pos d)) as Hqr.
  set (q := (n ÷ Z.pos d)%Z) in *.
  assert (Hr1 : (0 <= n -> 0 <= Z.rem n (Z.pos d) < Z.pos d)%Z)
    by (intros; apply Z.rem_bound_pos; lia).
  assert (Hr2 : (n <= 0 -> - Z.pos d < Z.rem n (Z.pos d) <= 0)%Z).
  { intros. apply Z.rem_bound_pos_neg; lia. }
  set (r := Z.rem n (Z.pos d)) in *.
  unfold Qle, Qlt, Qminus, Qplus, Qopp, inject_Z. cbn [Qnum Qden].
  rewrite ?Pos.mul_1_r, ?Z.mul_1_r, ?Z.mul_0_l.
  destruct (Z_le_gt_dec 0 n) as [Hn|Hn];
    [specialize (Hr1 Hn) | specialize (Hr2 ltac:(lia))]; nia.
Qed.

(** * The market value without growth *)

Lemma no_growth_step (g : Globals) :
  capital_growth g = 0 ->
  forall yr st fr,
    current_value st = of_int (buy_price g) -> body g st yr = Ok fr ->
    current_value (advance g fr) = of_int (buy_price g).
Proof.
  intros Hg yr st fr Hst Hb.
  destruct (body_spec _ _ _ _ Hb) as (_ & _ & _ & _ & Hv & _).
  cbn [advance current_value]. rewrite Hv, Hst, Hg. ring.
Qed.

(** C9.  On valid inputs with [capital_growth = 0], in every year the
    value of the property is the purchase price, and so is the
    [Market Value] of the emitted row. *)
Theorem market_value_constant (g : Globals) (years : Z) :
  valid g -> capital_growth g = 0 ->
  exists frs,
    frames g years = Ok frs /\
    calculate_data g years = Ok (map row_of frs) /\
    (forall fr, In fr frs ->
       current_value (vars fr) = of_int (buy_price g)) /\
    (forall row, In row (map row_of frs) -> Market_Value row = buy_price g).
Proof.
  intros V Hg.
  destruct (frames_total g years (valid_no_raise g V))
    as (frs & Hf & Hs & _).
  exists frs. split; [assumption|].
  split; [now apply calculate_data_frames|].
  pose proof (steps_nth g (fun _ st => current_value st = of_int (buy_price g))
                (no_growth_step g Hg) _ _ _ Hs eq_refl) as Hnth.
  assert (Hval : forall fr, In fr frs ->
                   current_value (vars fr) = of_int (buy_price g)).
  { intros fr Hin. apply In_nth_error in Hin. destruct Hin as [k Hk].
    destruct (Hnth k fr Hk) as (stk & HP & Hb & _).
    exact (no_growth_step g Hg _ _ _ HP Hb). }
  split; [exact Hval|].
  intros row Hin. apply in_map_iff in Hin. destruct Hin as (fr & <- & Hin).
  cbn. rewrite (Hval fr Hin). apply int_of_int.
Qed.

Lemma market_value_constant_witness :
  valid defaults_flat /\ capital_growth defaults_flat = 0 /\
  exists frs,
    frames defaults_flat 30 = Ok frs /\
    calculate_data defaults_flat 30 = Ok (map row_of frs) /\
    (forall fr, In fr frs ->
       current_value (vars fr) = of_int (buy_price defaults_flat)) /\
    (forall row, In row (map row_of frs) ->
       Market_Value row = buy_price defaults_flat).
Proof.
  split; [exact defaults_flat_valid|]. split; [reflexivity|].
  exact (market_value_constant defaults_flat 30 defaults_flat_valid eq_refl).
Defined.

(** * The emitted rows *)

(** C10.  On valid inputs every numeric field of every emitted row is the
    quantity the year computed, truncated toward zero by [int], so that
    it is less than [1] away from it; and the emitted cumulative
    cashflow need not be the sum of the emitted annual cashflows: with the
    default inputs, the row of year 2 has [-6136] where the annual
    cashflows [-3174] and [-2961] add up to [-6135]. *)
Theorem rows_are_truncated :
  (forall g years,
     valid g ->
     exists frs,
       frames g years = Ok frs /\
       calculate_data g years = Ok (map row_of frs) /\
       forall fr, In fr frs ->
         Year (row_of fr) = year fr /\
         Market_Value (row_of fr) = int (current_value (vars fr)) /\
         truncates (Market_Value (row_of fr)) (current_value (vars fr)) /\
         Annual_Rent (row_of fr) = int (effective_rent fr) /\
         truncates (Annual_Rent (row_of fr)) (effective_rent fr) /\
         Annual_Cashflow (row_of fr) = int (post_tax_cashflow fr) /\
         truncates (Annual_Cashflow (row_of fr)) (post_tax_cashflow fr) /\
         Cumulative_Cashflow (row_of fr)
         = int (cumulative_cashflow (vars fr)) /\
         truncates (Cumulative_Cashflow (row_of fr))
           (cumulative_cashflow (vars fr)) /\
         Real_Total_Return (row_of fr) = int (net_wealth fr) /\
         truncates (Real_Total_Return (row_of fr)) (net_wealth fr)) /\
  (exists row1 row2,
     calculate_data defaults 2 = Ok [row1; row2] /\
     Annual_Cashflow row1 = (-3174)%Z /\
     Annual_Cashflow row2 = (-2961)%Z /\
     Cumulative_Cashflow row2 = (-6136)%Z /\
     Cumulative_Cashflow row2
     <> sum_int (map Annual_Cashflow [row1; row2])).
Proof.
  split.
  - intros g years V.
    destruct (frames_total g years (valid_no_raise g V))
      as (frs & Hf & _).
    exists frs. split; [assumption|].
    split; [now apply calculate_data_frames|].
    intros fr _. cbn [row_of Year Market_Value Annual_Rent Annual_Cashflow
                        Cumulative_Cashflow Real_Total_Return].
    repeat (split; [first [reflexivity | apply int_truncates]|]).
    apply int_truncates.
  - destruct (calculate_data defaults 2) as [[|r1 [|r2 [|r3 rest]]]|] eqn:E;
      try (vm_compute in E; discriminate).
    exists r1, r2. split; [reflexivity|].
    vm_compute in E. injection E as <- <-.
    repeat split; try reflexivity. vm_compute. discriminate.
Qed.

Lemma rows_are_truncated_witness :
  valid defaults /\
  exists frs,
    frames defaults 10 = Ok frs /\
    calculate_data defaults 10 = Ok (map row_of frs) /\
    forall fr, In fr frs ->
      Year (row_of fr) = year fr /\
      Market_Value (row_of fr) = int (current_value (vars fr)) /\
      truncates (Market_Value (row_of fr)) (current_value (vars fr)) /\
      Annual_Rent (row_of fr) = int (effective_rent fr) /\
      truncates (Annual_Rent (row_of fr)) (effective_rent fr) /\
      Annual_Cashflow (row_of fr) = int (post_tax_cashflow fr) /\
      truncates (Annual_Cashflow (row_of fr)) (post_tax_cashflow fr) /\
      Cumulative_Cashflow (row_of fr)
      = int (cumulative_cashflow (vars fr)) /\
      truncates (Cumulative_Cashflow (row_of fr))
        (cumulative_cashflow (vars fr)) /\
      Real_Total_Return (row_of fr) = int (net_wealth fr) /\
      truncates (Real_Total_Return (row_of fr)) (net_wealth fr).
Proof.
  split; [exact defaults_valid|].
  exact (proj1 rows_are_truncated defaults 10%Z defaults_valid).
Defined.

(** * Errors *)

Lemma Qcpower_mult (x y : Qc) (n : nat) : (x * y) ^ n = x ^ n * y ^ n.
Proof.
  induction n as [|n IH]; [cbn; ring|]. rewrite !Qcpower_S, IH. ring.
Qed.

Lemma Qcpower_le_1 (x : Qc) (n : nat) :
  0 <= x -> x <= 1 -> 0 <= x ^ n /\ x ^ n <= 1.
Proof.
  intros H0 H1. induction n as [|n [IH0 IH1]].
  - cbn. split; qc_lra.
  - rewrite Qcpower_S. split; qc_nra.
Qed.

Lemma Qcpower_lt_1 (x : Qc) (n : nat) :
  0 <= x -> x < 1 -> (0 < n)%nat -> x ^ n < 1.
Proof.
  intros H0 H1 Hn. destruct n as [|n]; [lia|]. rewrite Qcpower_S.
  destruct (Qcpower_le_1 x n H0) as [IH0 IH1]; [qc_lra|]. qc_nra.
Qed.

Lemma Qcpower_eq_1_nonneg (x : Qc) (n : nat) :
  0 <= x -> (0 < n)%nat -> x ^ n = 1 -> x = 1.
Proof.
  intros H0 Hn E. destruct (Qc_dec x 1) as [[Hlt|Hgt]|Heq]; [| |assumption].
  - pose proof (Qcpower_lt_1 x n H0 Hlt Hn) as H. rewrite E in H. qc_lra.
  - pose proof (Qcpower_gt_1 x n Hgt Hn) as H. rewrite E in H. qc_lra.
Qed.

(** A power with a positive exponent is [1] for the bases [1] and [-1]
    only. *)
Lemma Qcpower_eq_1 (x : Qc) (n : nat) :
  (0 < n)%nat -> x ^ n = 1 -> x = 1 \/ x = - (1).
Proof.
  intros Hn E.
  assert (Hsq : x * x = 1).
  { apply (Qcpower_eq_1_nonneg (x * x) n); [qc_nra | assumption |].
    rewrite Qcpower_mult, E. ring. }
  assert (Hf : (x - 1) * (x + 1) = 0).
  { replace ((x - 1) * (x + 1)) with (x * x - 1) by ring. rewrite Hsq. ring. }
  apply Qcmult_integral in Hf. destruct Hf as [Hf|Hf]; [left|right]; qc_lra.
Qed.

Lemma Qcinv_eq_1 (x : Qc) : / x = 1 -> x = 1.
Proof.
  intros E. destruct (Qc_eq_dec x 0) as [->|Hx].
  - apply (f_equal this) in E. vm_compute in E. discriminate.
  - pose proof (Qcmult_inv_r x Hx) as H. rewrite E, Qcmult_1_r in H. exact H.
Qed.

(** [calculate_pmt] returns for every rate but -100% and -200%. *)
Lemma calculate_pmt_returns (rate : num) (nper : Z) (pv : num) :
  rate <> - (1) -> rate <> - of_int 2 -> (0 < nper)%Z ->
  exists a, calculate_pmt rate nper pv = Ok a.
Proof.
  intros H1 H2 Hn. destruct (Qc_eq_dec rate 0) as [->|H0].
  - rewrite calculate_pmt_rate_0 by assumption. eauto.
  - unfold calculate_pmt.
    replace (is_zero rate) with false by (symmetry; now apply is_zero_false).
    assert (Hb : 1 + rate <> 0) by (intros E; apply H1; qc_lra).
    rewrite pow_neg by assumption. cbn [bind].
    rewrite truediv_Ok; [eauto|].
    intros E.
    assert (Ep : (1 + rate) ^ Z.to_nat nper = 1).
    { apply Qcinv_eq_1. qc_lra. }
    apply Qcpower_eq_1 in Ep; [|lia].
    clear E.
    destruct Ep as [Ep|Ep]; [apply H0 | apply H2];
      qc2q; unfold inject_Z in *; lra.
Qed.


Lemma body_returns (g : Globals) (st : State) (yr : Z) :
  ~ divides_by_zero g -> exists fr, body g st yr = Ok fr.
Proof.
  intros Hnz. unfold body.
  assert (Hrep : exists ip pp, repayment g st yr = Ok (ip, pp)).
  { destruct (repayment_type g) eqn:E.
    - rewrite repayment_IO by assumption. eauto.
    - destruct (Z_le_gt_dec yr loan_term) as [Hyr|Hyr].
      + rewrite repayment_PI_running by assumption.
        destruct (calculate_pmt_returns (interest_rate g)
                    (loan_term - (yr - 1)) (loan_amount st)) as [a ->];
          [| |lia|cbn; eauto];
          intros E'; apply Hnz; split; auto.
      + rewrite repayment_PI_over by (assumption || lia). eauto. }
  destruct Hrep as (ip & pp & ->).
  destruct (inflation_total yr) as [m ->]. cbn. eauto.
Qed.

Lemma loop_returns (g : Globals) (n : nat) :
  ~ divides_by_zero g ->
  forall yr st, exists frs, loop g n yr st = Ok frs /\ length frs = n.
Proof.
  intros Hnz. induction n as [|n IH]; intros yr st; cbn; eauto.
  destruct (body_returns g st yr Hnz) as [fr ->]. cbn.
  destruct (IH (yr + 1)%Z (advance g fr)) as (rest & -> & Hlen). cbn.
  exists (fr :: rest). cbn. auto.
Qed.




(** * Beyond the horizon: prefixes *)

Lemma not_divides_by_zero_IO (g : Globals) :
  repayment_type g = IO -> ~ divides_by_zero g.
Proof. intros E [E' _]. congruence. Qed.

Lemma not_divides_by_zero_rate (g : Globals) :
  0 <= interest_rate g -> ~ divides_by_zero g.
Proof.
  intros Hr [_ [E|E]]; rewrite E in Hr; vm_compute in Hr; now apply Hr.
Qed.

(** The loop runs to its end on every input that does not divide by
    zero. *)
Lemma frames_returns (g : Globals) (years : Z) :
  ~ divides_by_zero g ->
  exists frs, frames g years = Ok frs /\ steps g 1 (init g) frs
              /\ length frs = Z.to_nat years.
Proof.
  intros Hnz. unfold frames.
  destruct (loop_returns g (Z.to_nat years) Hnz 1%Z (init g)) as (frs & H & _).
  exists frs. split; [assumption|]. now apply loop_steps.
Qed.

Lemma loop_prefix (g : Globals) (n m : nat) :
  forall yr st frs,
    loop g (n + m) yr st = Ok frs -> loop g n yr st = Ok (firstn n frs).
Proof.
  induction n as [|n IH]; intros yr st frs H; [reflexivity|].
  cbn [Nat.add loop] in *.
  destruct (body g st yr) as [fr|]; [|discriminate]. cbn [bind] in *.
  destruct (loop g (n + m) (yr + 1) (advance g fr)) as [rest|] eqn:Hl;
    [|discriminate].
  cbn [bind] in H. injection H as <-.
  rewrite (IH _ _ _ Hl). reflexivity.
Qed.

Lemma loop_raise_extends (g : Globals) (n m : nat) :
  forall yr st e,
    loop g n yr st = Raise e -> loop g (n + m) yr st = Raise e.
Proof.
  induction n as [|n IH]; intros yr st e H; [discriminate|].
  cbn [Nat.add loop] in *.
  destruct (body g st yr) as [fr|]; [|exact H]. cbn [bind] in *.
  destruct (loop g n (yr + 1) (advance g fr)) as [rest|] eqn:Hl;
    [discriminate|].
  cbn [bind] in H. injection H as <-.
  now rewrite (IH _ _ _ Hl).
Qed.

(** X1.  A shorter horizon gives the first rows of a longer one: for
    [n <= m], when [calculate_data(m)] returns a table,
    [calculate_data(n)] returns its first [n] rows, and when
    [calculate_data(n)] raises, [calculate_data(m)] raises the same. *)
Theorem calculate_data_prefix (g : Globals) (n m : Z) :
  (n <= m)%Z ->
  (forall rows,
     calculate_data g m = Ok rows ->
     calculate_data g n = Ok (firstn (Z.to_nat n) rows)) /\
  (forall e,
     calculate_data g n = Raise e -> calculate_data g m = Raise e).
Proof.
  intros Hnm.
  assert (Hm : Z.to_nat m = (Z.to_nat n + (Z.to_nat m - Z.to_nat n))%nat)
    by lia.
  unfold calculate_data, frames. rewrite Hm. split.
  - intros rows H.
    destruct (loop g (Z.to_nat n + _) 1 (init g)) as [frs|] eqn:Hl;
      [|discriminate].
    cbn in H. injection H as <-.
    rewrite (loop_prefix g _ _ _ _ _ Hl). cbn. now rewrite firstn_map.
  - intros e H.
    destruct (loop g (Z.to_nat n) 1 (init g)) as [frs|] eqn:Hl;
      [discriminate|].
    cbn in H. injection H as <-.
    now rewrite (loop_raise_extends g _ _ _ _ _ Hl).
Qed.

Lemma calculate_data_prefix_witness :
  (5 <= 30)%Z /\
  exists rows,
    calculate_data defaults 30 = Ok rows /\
    calculate_data defaults 5 = Ok (firstn (Z.to_nat 5) rows).
Proof.
  split; [lia|].
  destruct (frames_returns defaults 30
              (not_divides_by_zero_IO defaults eq_refl)) as (frs & Hf & _).
  exists (map row_of frs).
  pose proof (calculate_data_frames defaults 30 frs Hf) as Hd.
  split; [exact Hd|].
  exact (proj1 (calculate_data_prefix defaults 5 30 ltac:(lia)) _ Hd).
Defined.

(** * Compounding *)

Lemma pow_nonneg (x : num) (n : Z) :
  (0 <= n)%Z -> pow x n = Ok (x ^ Z.to_nat n).
Proof. intros Hn. destruct n as [|p|p]; try lia; reflexivity. Qed.

(** The cost lines of a frame. *)
Lemma body_costs (g : Globals) (st : State) (yr : Z) (fr : Frame) :
  body g st yr = Ok fr ->
  pow (1 + cpi) (yr - 1) = Ok (inflation_multiplier fr) /\
  current_fixed_expenses fr = of_int (sum_expenses g) * inflation_multiplier fr /\
  mgmt_fee fr = effective_rent fr * mgmt_fee_pct g /\
  maintenance fr = effective_rent fr * maintain_pct g /\
  total_cash_expenses fr
  = interest_payment fr + principal_payment fr + current_fixed_expenses fr
    + mgmt_fee fr + maintenance fr /\
  pre_tax_cashflow fr = effective_rent fr - total_cash_expenses fr /\
  net_wealth fr
  = (current_value (vars fr) - loan_amount (vars fr))
    - initial_cash_invested g + cumulative_cashflow (vars fr).
Proof. intros H. body_inv H. cbn. repeat split; reflexivity || assumption. Qed.

Lemma compounding_step (g : Globals) (yr : Z) (st : State) (fr : Frame) :
  compounding g yr st -> body g st yr = Ok fr ->
  compounding g (yr + 1) (advance g fr).
Proof.
  intros (Hyr & Hv & Hw) Hb.
  destruct (body_spec _ _ _ _ Hb) as (_ & _ & _ & _ & Hcv & _ & Hcw).
  split; [lia|].
  replace (Z.to_nat (yr + 1 - 1)) with (S (Z.to_nat (yr - 1))) by lia.
  rewrite !Qcpower_S. cbn [advance current_value current_weekly_rent].
  rewrite Hcv, Hcw, Hv, Hw. split; ring.
Qed.

Lemma compounding_init (g : Globals) : compounding g 1 (init g).
Proof. split; [lia|]. cbn. split; ring. Qed.

(** Every frame comes from a state in which value and rent have grown
    once for every year before it. *)
Lemma frames_compounding (g : Globals) (years : Z) :
  ~ divides_by_zero g ->
  exists frs,
    frames g years = Ok frs /\
    forall fr, In fr frs ->
      exists st, compounding g (year fr) st /\ body g st (year fr) = Ok fr.
Proof.
  intros Hnz. destruct (frames_returns g years Hnz) as (frs & Hf & Hs & _).
  exists frs. split; [assumption|].
  intros fr Hin. apply In_nth_error in Hin. destruct Hin as [k Hk].
  destruct (steps_nth g (compounding g) (compounding_step g) _ _ _ Hs
              (compounding_init g) k fr Hk) as (stk & HP & Hb & _).
  destruct (body_spec _ _ _ _ Hb) as (Hy & _). rewrite Hy. eauto.
Qed.



(** X3.  On every input that does not divide by zero, in year [k] the
    gross rent is [52] weeks of the weekly rent grown [k - 1] times, the
    effective rent is its share left by the vacancy, and the fixed
    expenses are the sum of the five entered costs inflated [k - 1] times
    at [cpi]. *)
Theorem rent_and_costs_grow (g : Globals) (years : Z) :
  ~ divides_by_zero g ->
  exists frs,
    frames g years = Ok frs /\
    forall fr, In fr frs ->
      annual_rent_gross fr
      = of_int (weekly_rent g)
        * (1 + rental_growth g) ^ Z.to_nat (year fr - 1) * of_int 52 /\
      effective_rent fr = annual_rent_gross fr * (1 - vacancy_rate g) /\
      current_fixed_expenses fr
      = of_int (council_rates g + water_rates g + strata_fees g
                + insurance g + land_tax g)
        * (1 + cpi) ^ Z.to_nat (year fr - 1).
Proof.
  intros Hnz. destruct (frames_compounding g years Hnz) as (frs & Hf & H).
  exists frs. split; [assumption|].
  intros fr Hin. destruct (H fr Hin) as (st & (Hyr & _ & Hw) & Hb).
  destruct (body_rent _ _ _ _ Hb) as (Hg & Hl & He).
  destruct (body_costs _ _ _ _ Hb) as (Hp & Hfx & _).
  rewrite pow_nonneg in Hp by lia. injection Hp as Hp.
  split; [now rewrite Hg, Hw|]. split; [rewrite He, Hl; ring|].
  rewrite Hfx, <- Hp. reflexivity.
Qed.

Lemma rent_and_costs_grow_witness :
  ~ divides_by_zero defaults /\
  exists frs,
    frames defaults 30 = Ok frs /\
    forall fr, In fr frs ->
      annual_rent_gross fr
      = of_int (weekly_rent defaults)
        * (1 + rental_growth defaults) ^ Z.to_nat (year fr - 1) * of_int 52 /\
      effective_rent fr = annual_rent_gross fr * (1 - vacancy_rate defaults) /\
      current_fixed_expenses fr
      = of_int (council_rates defaults + water_rates defaults
                + strata_fees defaults + insurance defaults
                + land_tax defaults)
        * (1 + cpi) ^ Z.to_nat (year fr - 1).
Proof.
  assert (H : ~ divides_by_zero defaults)
    by (apply not_divides_by_zero_IO; reflexivity).
  split; [exact H|]. exact (rent_and_costs_grow defaults 30 H).
Defined.

(** * When [calculate_pmt] raises *)







(** * The repayment over the term *)





Lemma fold_left_Qcplus (l : list num) (a : num) :
  fold_left Qcplus l a = a + sum_num l.
Proof.
  unfold sum_num. revert a. induction l as [|x l IH]; intros a; cbn.
  - ring.
  - rewrite IH, (IH (0 + x)). ring.
Qed.

Lemma sum_num_cons (x : num) (l : list num) : sum_num (x :: l) = x + sum_num l.
Proof. unfold sum_num at 1. cbn. rewrite fold_left_Qcplus. ring. Qed.

(** The balance after a year is the balance the loop started from less
    the principal paid so far. *)
Lemma steps_principal (g : Globals) (yr : Z) (st : State) (frs : list Frame) :
  steps g yr st frs ->
  forall k fr,
    nth_error frs k = Some fr ->
    loan_amount (vars fr)
    = loan_amount st - sum_num (map principal_payment (firstn (S k) frs)).
Proof.
  induction 1 as [|yr st fr0 frs Hb _ IH]; intros k fr Hk.
  - destruct k; discriminate.
  - destruct (body_spec _ _ _ _ Hb) as (_ & _ & Hl & _).
    rewrite firstn_cons. cbn [map]. rewrite sum_num_cons.
    destruct k as [|k]; cbn in Hk.
    + injection Hk as <-. rewrite firstn_O. cbn [map].
      rewrite Hl. unfold sum_num. cbn. ring.
    + rewrite (IH k fr Hk), advance_loan_amount, Hl. ring.
Qed.




(** * Cashflow and taxable income *)

(** X7.  On every input that does not divide by zero, in every year the
    taxable income is the cashflow before tax, with the principal added
    back and the depreciation taken off; so the cashflow after tax is the
    cashflow before tax, taxed, less the tax on principal net of
    depreciation. *)
Theorem taxable_income_from_cashflow (g : Globals) (years : Z) :
  ~ divides_by_zero g ->
  exists frs,
    frames g years = Ok frs /\
    forall fr, In fr frs ->
      taxable_income fr
      = pre_tax_cashflow fr + principal_payment fr
        - current_depreciation (vars fr) /\
      post_tax_cashflow fr
      = pre_tax_cashflow fr * (1 - tax_rate g)
        - (principal_payment fr - current_depreciation (vars fr))
          * tax_rate g.
Proof.
  intros Hnz. destruct (frames_compounding g years Hnz) as (frs & Hf & H).
  exists frs. split; [assumption|].
  intros fr Hin. destruct (H fr Hin) as (st & _ & Hb).
  destruct (body_tax _ _ _ _ Hb) as (Hd & Ht & Hi & Hp).
  destruct (body_costs _ _ _ _ Hb) as (_ & _ & _ & _ & Hc & Hpre & _).
  assert (E : taxable_income fr
              = pre_tax_cashflow fr + principal_payment fr
                - current_depreciation (vars fr)).
  { rewrite Ht, Hd, Hpre, Hc. ring. }
  split; [exact E|]. rewrite Hp, Hi, E. ring.
Qed.

Lemma taxable_income_from_cashflow_witness :
  ~ divides_by_zero defaults_PI /\
  exists frs,
    frames defaults_PI 30 = Ok frs /\
    forall fr, In fr frs ->
      taxable_income fr
      = pre_tax_cashflow fr + principal_payment fr
        - current_depreciation (vars fr) /\
      post_tax_cashflow fr
      = pre_tax_cashflow fr * (1 - tax_rate defaults_PI)
        - (principal_payment fr - current_depreciation (vars fr))
          * tax_rate defaults_PI.
Proof.
  assert (H : ~ divides_by_zero defaults_PI)
    by (apply not_divides_by_zero_rate; qc_decide).
  split; [exact H|]. exact (taxable_income_from_cashflow defaults_PI 30 H).
Defined.

(** * Interest only, and no loan *)









(** * The row of the selected year *)

(** In a table whose years count up from [s], the rows of a year are the
    one row at its place, or none when the year is outside the table. *)
Lemma rows_of_year_counting (df : list Row) :
  forall s,
    map Year df = map (fun i => (s + Z.of_nat i)%Z) (seq 0 (length df)) ->
    forall y,
      ((y < s \/ s + Z.of_nat (length df) <= y)%Z -> rows_of_year df y = []) /\
      ((s <= y < s + Z.of_nat (length df))%Z ->
         exists r,
           nth_error df (Z.to_nat (y - s)) = Some r /\ Year r = y /\
           rows_of_year df y = [r]).
Proof.
  induction df as [|r0 df IH]; intros s Hy y.
  - split; [reflexivity | cbn; lia].
  - cbn [map length seq] in Hy. injection Hy as Hr0 Hrest.
    rewrite Z.add_0_r in Hr0.
    assert (Hrest' : map Year df
                     = map (fun i => (s + 1 + Z.of_nat i)%Z)
                         (seq 0 (length df))).
    { rewrite Hrest, <- seq_shift, map_map. apply map_ext. intros i. lia. }
    destruct (IH (s + 1)%Z Hrest' y) as [Hout Hin].
    unfold rows_of_year in *. cbn [filter length]. rewrite Hr0. split.
    + intros Hy'. replace (s =? y)%Z with false by (symmetry; apply Z.eqb_neq; lia).
      apply Hout. lia.
    + intros Hy'. destruct (Z.eqb_spec s y) as [<-|Hne].
      * exists r0. replace (Z.to_nat (s - s)) with 0%nat by lia.
        repeat split; [assumption|]. f_equal. apply Hout. lia.
      * destruct Hin as (r & Hn & Hyr & Hf); [lia|]. exists r.
        replace (Z.to_nat (y - s)) with (S (Z.to_nat (y - (s + 1)))) by lia.
        auto.
Qed.

Lemma calculate_data_counting (g : Globals) (years : Z) :
  ~ divides_by_zero g ->
  exists df,
    calculate_data g years = Ok df /\ length df = Z.to_nat years /\
    map Year df = map (fun i => (1 + Z.of_nat i)%Z) (seq 0 (length df)).
Proof.
  intros Hnz. destruct (frames_returns g years Hnz) as (frs & Hf & Hs & Hlen).
  exists (map row_of frs). split; [now apply calculate_data_frames|].
  rewrite length_map. split; [assumption|].
  rewrite map_map. change (fun x => Year (row_of x)) with year.
  exact (steps_years g _ _ _ Hs).
Qed.

(** X10.  In the table of [calculate_data(years)], for a positive horizon
    (an empty table has no [Year] column to select on), the selection
    [df[df["Year"] == y]] has exactly one row for a year [y] between [1]
    and [years], the row at place [y - 1], and [.iloc[0]] returns it; for
    any other [y] the selection is empty and [.iloc[0]] raises
    [IndexError]. *)
Theorem target_row_of_year (g : Globals) (years : Z) :
  ~ divides_by_zero g -> (0 < years)%Z ->
  exists df,
    calculate_data g years = Ok df /\
    forall y,
      ((1 <= y <= years)%Z ->
         exists r,
           rows_of_year df y = [r] /\ target_row df y = Returns r /\
           Year r = y /\ nth_error df (Z.to_nat (y - 1)) = Some r) /\
      ((y < 1 \/ years < y)%Z ->
         rows_of_year df y = [] /\ target_row df y = Fails IndexError).
Proof.
  intros Hnz _.
  destruct (calculate_data_counting g years Hnz) as (df & Hd & Hlen & Hy).
  exists df. split; [assumption|]. intros y.
  destruct (rows_of_year_counting df 1%Z Hy y) as [Hout Hin]. split.
  - intros Hr. destruct Hin as (r & Hn & Hyr & Hf); [lia|].
    exists r. unfold target_row. rewrite Hf. auto.
  - intros Hr. unfold target_row. rewrite Hout by lia. auto.
Qed.

Lemma target_row_of_year_witness :
  ~ divides_by_zero defaults /\ (0 < 30)%Z /\
  exists df,
    calculate_data defaults 30 = Ok df /\
    forall y,
      ((1 <= y <= 30)%Z ->
         exists r,
           rows_of_year df y = [r] /\ target_row df y = Returns r /\
           Year r = y /\ nth_error df (Z.to_nat (y - 1)) = Some r) /\
      ((y < 1 \/ 30 < y)%Z ->
         rows_of_year df y = [] /\ target_row df y = Fails IndexError).
Proof.
  assert (H : ~ divides_by_zero defaults)
    by (apply not_divides_by_zero_IO; reflexivity).
  split; [exact H|]. split; [lia|].
  exact (target_row_of_year defaults 30 H ltac:(lia)).
Defined.






(** * Rows from one year to the next *)

Lemma of_int_add (a b : Z) : of_int (a + b) = of_int a + of_int b.
Proof.
  apply Qc_is_canon. qc2q. unfold Qeq, Qplus, inject_Z. cbn. lia.
Qed.


(** [int] is monotone. *)
Lemma int_le (x y : num) : x <= y -> (int x <= int y)%Z.
Proof.
  intros Hxy.
  destruct (int_truncates x) as (Hx0 & Hx1 & _).
  destruct (int_truncates y) as (Hy0 & Hy1 & _).
  destruct (Z_le_gt_dec (int x) (int y)) as [H|H]; [assumption|exfalso].
  assert (Hz : of_int (int y) + 1 <= of_int (int x)).
  { rewrite <- of_int_1, <- of_int_add. apply (proj1 (of_int_le _ _)). lia. }
  destruct (Qclt_le_dec x 0) as [Hxn|Hxp].
  - specialize (Hx1 (Qclt_le_weak _ _ Hxn)).
    destruct (Qclt_le_dec 0 y) as [Hyp|Hyn].
    + specialize (Hy0 (Qclt_le_weak _ _ Hyp)).
      assert (Hzx : (int x < 1)%Z)
        by (apply of_int_lt; rewrite of_int_1; clear - Hx1 Hxn; qc_lra).
      assert (Hzy : (-1 < int y)%Z).
      { apply of_int_lt. replace (of_int (-1)) with (- (1)) by qc_compute.
        clear - Hy0 Hyp. qc_lra. }
      lia.
    + specialize (Hy1 Hyn). clear - Hxy Hz Hx1 Hy1. qc_lra.
  - specialize (Hx0 Hxp).
    assert (Hyp : 0 <= y) by (clear - Hxy Hxp; qc_lra).
    specialize (Hy0 Hyp). clear - Hxy Hz Hx0 Hy0. qc_lra.
Qed.

(** The value and the effective rent of the frame at place [k]. *)
Lemma frames_closed_forms (g : Globals) (years : Z) :
  ~ divides_by_zero g ->
  exists frs,
    frames g years = Ok frs /\
    forall k fr,
      nth_error frs k = Some fr ->
      year fr = (1 + Z.of_nat k)%Z /\
      current_value (vars fr)
      = of_int (buy_price g) * (1 + capital_growth g) ^ S k /\
      effective_rent fr
      = of_int (weekly_rent g) * (1 + rental_growth g) ^ k * of_int 52
        * (1 - vacancy_rate g).
Proof.
  intros Hnz. destruct (frames_returns g years Hnz) as (frs & Hf & Hs & _).
  exists frs. split; [assumption|]. intros k fr Hk.
  destruct (steps_nth g (compounding g) (compounding_step g) _ _ _ Hs
              (compounding_init g) k fr Hk)
    as (stk & (_ & Hv & Hw) & Hb & _).
  destruct (body_spec _ _ _ _ Hb) as (Hy & _ & _ & _ & Hcv & _).
  destruct (body_rent _ _ _ _ Hb) as (Hg & Hl & He).
  replace (Z.to_nat (1 + Z.of_nat k - 1)) with k in Hv, Hw by lia.
  split; [assumption|]. split.
  - rewrite Hcv, Hv, Qcpower_S. ring.
  - rewrite He, Hl, Hg, Hw. ring.
Qed.

(** X12.  With a price and a weekly rent that are not negative, growth
    rates that are not negative and a vacancy rate of [1] at most, the
    [Market Value] and the [Annual Rent] never decrease from one row to
    the next. *)
Theorem rows_never_decrease (g : Globals) (years : Z) :
  ~ divides_by_zero g ->
  (0 <= buy_price g)%Z -> 0 <= capital_growth g ->
  (0 <= weekly_rent g)%Z -> 0 <= rental_growth g -> vacancy_rate g <= 1 ->
  exists df,
    calculate_data g years = Ok df /\
    forall k a b,
      nth_error df k = Some a -> nth_error df (S k) = Some b ->
      (Market_Value a <= Market_Value b)%Z /\
      (Annual_Rent a <= Annual_Rent b)%Z.
Proof.
  intros Hnz Hp Hcg Hw Hrg Hv.
  destruct (frames_closed_forms g years Hnz) as (frs & Hf & H).
  exists (map row_of frs). split; [now apply calculate_data_frames|].
  intros k a b Ha Hb.
  rewrite nth_error_map in Ha, Hb.
  destruct (nth_error frs k) as [fa|] eqn:Ea; [|discriminate].
  destruct (nth_error frs (S k)) as [fb|] eqn:Eb; [|discriminate].
  injection Ha as <-. injection Hb as <-.
  destruct (H _ _ Ea) as (_ & Hva & Hea).
  destruct (H _ _ Eb) as (_ & Hvb & Heb).
  assert (Hp' : 0 <= of_int (buy_price g))
    by (rewrite <- of_int_0; now apply (proj1 (of_int_le _ _))).
  assert (Hw' : 0 <= of_int (weekly_rent g))
    by (rewrite <- of_int_0; now apply (proj1 (of_int_le _ _))).
  assert (H52 : 0 <= of_int 52) by qc_decide.
  assert (Hc : 0 <= (1 + capital_growth g) ^ S k)
    by (apply Qcpower_pos; clear - Hcg; qc_lra).
  assert (Hr : 0 <= (1 + rental_growth g) ^ k)
    by (apply Qcpower_pos; clear - Hrg; qc_lra).
  cbn [row_of Market_Value Annual_Rent]. split; apply int_le.
  - rewrite Hva, Hvb, (Qcpower_S _ (S k)).
    set (c := (1 + capital_growth g) ^ S k) in *. clearbody c.
    assert (Hpc : 0 <= of_int (buy_price g) * c) by (clear - Hp' Hc; qc_nra).
    clear - Hpc Hcg. qc_nra.
  - rewrite Hea, Heb, (Qcpower_S _ k).
    set (r := (1 + rental_growth g) ^ k) in *. clearbody r.
    assert (Hwr : 0 <= of_int (weekly_rent g) * r)
      by (clear - Hw' Hr; qc_nra).
    assert (Hwr52 : 0 <= of_int (weekly_rent g) * r * of_int 52)
      by (clear - Hwr H52; qc_nra).
    set (x := of_int (weekly_rent g) * r * of_int 52) in *.
    replace (of_int (weekly_rent g) * ((1 + rental_growth g) * r)
             * of_int 52 * (1 - vacancy_rate g))
      with (x * (1 - vacancy_rate g) * (1 + rental_growth g))
      by (subst x; ring).
    assert (Hxv : 0 <= x * (1 - vacancy_rate g))
      by (clear - Hwr52 Hv; qc_nra).
    clear - Hxv Hrg. qc_nra.
Qed.

Lemma rows_never_decrease_witness :
  exists df,
    calculate_data defaults_PI 30 = Ok df /\
    forall k a b,
      nth_error df k = Some a -> nth_error df (S k) = Some b ->
      (Market_Value a <= Market_Value b)%Z /\
      (Annual_Rent a <= Annual_Rent b)%Z.
Proof.
  apply (rows_never_decrease defaults_PI 30);
    solve [apply not_divides_by_zero_rate; qc_decide | cbn; lia | qc_decide].
Defined.

(** * The two cashflow columns *)






(** * What the total return is made of *)

(** X14.  On every input that does not divide by zero, the net wealth of
    year [k], which [Real Total Return] truncates, is the capital gain
    since the purchase, plus the principal repaid so far, less the stamp
    duty, plus the cashflows after tax so far. *)
Theorem real_total_return_parts (g : Globals) (years : Z) :
  ~ divides_by_zero g ->
  exists frs,
    frames g years = Ok frs /\
    calculate_data g years = Ok (map row_of frs) /\
    forall k fr,
      nth_error frs k = Some fr ->
      net_wealth fr
      = of_int (buy_price g) * ((1 + capital_growth g) ^ S k - 1)
        + sum_num (map principal_payment (firstn (S k) frs))
        - of_int (stamp_duty g)
        + sum_num (map post_tax_cashflow (firstn (S k) frs)) /\
      Real_Total_Return (row_of fr) = int (net_wealth fr).
Proof.
  intros Hnz. destruct (frames_closed_forms g years Hnz) as (frs & Hf & H).
  exists frs. split; [assumption|].
  split; [now apply calculate_data_frames|].
  intros k fr Hk. split; [|reflexivity].
  assert (Hs : steps g 1 (init g) frs)
    by (unfold frames in Hf; now apply loop_steps in Hf).
  destruct (H k fr Hk) as (_ & Hv & _).
  pose proof (steps_principal g _ _ _ Hs k fr Hk) as Hl.
  pose proof (steps_cumulative g _ _ _ Hs k fr Hk) as Hc.
  cbn [init cumulative_cashflow loan_amount] in Hl, Hc.
  fold (sum_num (map post_tax_cashflow (firstn (S k) frs))) in Hc.
  destruct (steps_nth g (fun _ _ => True) (fun _ _ _ _ _ => I) _ _ _ Hs I
              k fr Hk) as (stk & _ & Hb & _).
  destruct (body_costs _ _ _ _ Hb) as (_ & _ & _ & _ & _ & _ & Hn).
  rewrite Hn, Hv, Hl, Hc. unfold initial_cash_invested. ring.
Qed.

Lemma real_total_return_parts_witness :
  ~ divides_by_zero defaults_PI /\
  exists frs,
    frames defaults_PI 30 = Ok frs /\
    calculate_data defaults_PI 30 = Ok (map row_of frs) /\
    forall k fr,
      nth_error frs k = Some fr ->
      net_wealth fr
      = of_int (buy_price defaults_PI)
        * ((1 + capital_growth defaults_PI) ^ S k - 1)
        + sum_num (map principal_payment (firstn (S k) frs))
        - of_int (stamp_duty defaults_PI)
        + sum_num (map post_tax_cashflow (firstn (S k) frs)) /\
      Real_Total_Return (row_of fr) = int (net_wealth fr).
Proof.
  assert (H : ~ divides_by_zero defaults_PI)
    by (apply not_divides_by_zero_rate; qc_decide).
  split; [exact H|]. exact (real_total_return_parts defaults_PI 30 H).
Defined.
